(** * The level-simulation engine of the game scene (src/lib/game/GameScene.ts)

    A shallow embedding of the command interpreter, the movement and
    collision resolver, the combat resolver and the goal evaluator of
    [GameScene], followed by the properties of the specification.

    Rendering (sprites, tweens, camera effects, delays) is left out: it
    never feeds back into the simulation state.  JavaScript numbers are
    modelled as [Z]; levels carry integer coordinates and health values. *)

From stdpp Require Import base decidable option list strings gmap.
From Stdlib Require Import ZArith Lia.

Open Scope Z_scope.

(** ** Data model (src/lib/game/types.ts) *)

Record Position := mkPos { pos_x : Z; pos_y : Z }.

#[global] Instance Position_eq_dec : EqDecision Position.
Proof. solve_decision. Defined.

(** [Direction] is the level file's orientation; [HeroDirection] the scene's. *)
Inductive Direction := d_up | d_down | d_left | d_right.
Inductive HeroDirection := north | east | south | west.

#[global] Instance HeroDirection_eq_dec : EqDecision HeroDirection.
Proof. solve_decision. Defined.

Inductive CellType := floor | wall | water | lava | goal | start.

#[global] Instance CellType_eq_dec : EqDecision CellType.
Proof. solve_decision. Defined.

Record GridCell := mkCell { cell_type : CellType }.

Inductive CollectibleType := gem | coin | key | potion | scroll | sample | rock.

#[global] Instance CollectibleType_eq_dec : EqDecision CollectibleType.
Proof. solve_decision. Defined.

Record Collectible := mkCollectible {
  collectible_id : string;
  collectible_type : CollectibleType;
  collectible_position : Position
}.

(** The fields of a level's [Enemy] that the scene reads. *)
Record Enemy := mkEnemy {
  enemy_id : string;
  enemy_position : Position;
  enemy_health : Z;
  enemy_damage : Z
}.

Inductive GoalType :=
  reach_position | collect_all | collect_type | defeat_enemies | survive.

Record LevelGoal := mkGoal {
  goal_type : GoalType;
  goal_target : option Position;
  goal_count : option Z;
  goal_collectibleType : option CollectibleType;
  goal_description : string
}.

Record Level := mkLevel {
  grid : list (list GridCell);
  gridWidth : Z;
  gridHeight : Z;
  startPosition : Position;
  startDirection : Direction;
  goals : list LevelGoal;
  collectibles : list Collectible;
  enemies : list Enemy;
  maxExecutionSteps : Z
}.

(** ** Run-time state of the scene *)

(** The value the scene keeps per enemy in its [enemies] map. *)
Record EnemyData := mkEnemyData {
  health : Z;
  maxHealth : Z;
  damage : Z;
  position : Position
}.

(** What a run lets the outside observe, in the order it happens: a call of
    [performEnemyAttack], the counter-attack inside [attackEnemy], and a
    call of the [onComplete] callback. *)
Inductive Event :=
  | EnemyAttack (id : string)
  | CounterAttack (id : string)
  | Complete (success : bool) (message : string).

#[global] Instance Event_eq_dec : EqDecision Event.
Proof. solve_decision. Defined.

(** [enemyMap] is the JavaScript [Map]: keys are unique and iteration
    follows the order of first insertion. *)
Record State := mkState {
  heroPosition : Position;
  heroDirection : HeroDirection;
  collectedIds : gset string;
  heroHealth : Z;
  heroMaxHealth : Z;
  heroDead : bool;
  enemyMap : list (string * EnemyData);
  defeatedEnemies : gset string;
  events : list Event
}.

Definition set_heroPosition (p : Position) (s : State) : State :=
  mkState p (heroDirection s) (collectedIds s) (heroHealth s)
    (heroMaxHealth s) (heroDead s) (enemyMap s) (defeatedEnemies s) (events s).

Definition set_heroDirection (d : HeroDirection) (s : State) : State :=
  mkState (heroPosition s) d (collectedIds s) (heroHealth s)
    (heroMaxHealth s) (heroDead s) (enemyMap s) (defeatedEnemies s) (events s).

Definition set_collectedIds (c : gset string) (s : State) : State :=
  mkState (heroPosition s) (heroDirection s) c (heroHealth s)
    (heroMaxHealth s) (heroDead s) (enemyMap s) (defeatedEnemies s) (events s).

Definition set_heroHealth (h : Z) (s : State) : State :=
  mkState (heroPosition s) (heroDirection s) (collectedIds s) h
    (heroMaxHealth s) (heroDead s) (enemyMap s) (defeatedEnemies s) (events s).

Definition set_heroDead (b : bool) (s : State) : State :=
  mkState (heroPosition s) (heroDirection s) (collectedIds s) (heroHealth s)
    (heroMaxHealth s) b (enemyMap s) (defeatedEnemies s) (events s).

Definition set_enemyMap (m : list (string * EnemyData)) (s : State) : State :=
  mkState (heroPosition s) (heroDirection s) (collectedIds s) (heroHealth s)
    (heroMaxHealth s) (heroDead s) m (defeatedEnemies s) (events s).

Definition set_defeatedEnemies (d : gset string) (s : State) : State :=
  mkState (heroPosition s) (heroDirection s) (collectedIds s) (heroHealth s)
    (heroMaxHealth s) (heroDead s) (enemyMap s) d (events s).

Definition emit (e : Event) (s : State) : State :=
  mkState (heroPosition s) (heroDirection s) (collectedIds s) (heroHealth s)
    (heroMaxHealth s) (heroDead s) (enemyMap s) (defeatedEnemies s)
    (events s ++ [e]).

(** ** The JavaScript containers the scene relies on *)

(** [Map.prototype.set]: an existing key keeps its place and takes the new
    value, a new key goes to the end. *)
Fixpoint map_set {V : Type} (k : string) (v : V) (m : list (string * V))
  : list (string * V) :=
  match m with
  | [] => [(k, v)]
  | (k', v') :: m' =>
      if decide (k' = k) then (k, v) :: m' else (k', v') :: map_set k v m'
  end.

(** Array indexing [a[i]]: [undefined] outside the array. *)
Definition js_index {A : Type} (a : list A) (i : Z) : option A :=
  if i <? 0 then None else a !! Z.to_nat i.

(** [Array.prototype.join] with a separator. *)
Fixpoint join (sep : string) (l : list string) : string :=
  match l with
  | [] => ""
  | [x] => x
  | x :: rest => x +:+ sep +:+ join sep rest
  end.

Definition newline : string := String (Ascii.ascii_of_nat 10) EmptyString.

(** ** Running a possibly diverging loop

    [checkAdjacentEnemies] is a [while] loop that need not end, so it runs
    on fuel: [OutOfFuel] carries the state in which the loop was still
    running when the fuel ended. *)
Inductive Outcome (A : Type) :=
  | Done (a : A) (s : State)
  | OutOfFuel (s : State).
Arguments Done {A} a s.
Arguments OutOfFuel {A} s.

Definition outcome_state {A : Type} (o : Outcome A) : State :=
  match o with Done _ s => s | OutOfFuel s => s end.

Definition bind {A B : Type} (o : Outcome A) (k : A -> State -> Outcome B)
  : Outcome B :=
  match o with Done a s => k a s | OutOfFuel s => OutOfFuel s end.

(** ** Movement and collision *)

Definition delta (dir : HeroDirection) : Position :=
  match dir with
  | north => mkPos 0 (-1)
  | east => mkPos 1 0
  | south => mkPos 0 1
  | west => mkPos (-1) 0
  end.

Definition getPositionInDirection (pos : Position) (dir : HeroDirection)
  (steps : Z) : Position :=
  let d := delta dir in
  mkPos (pos_x pos + pos_x d * steps) (pos_y pos + pos_y d * steps).

Definition directionFromType (dir : Direction) : HeroDirection :=
  match dir with
  | d_up => north | d_down => south | d_left => west | d_right => east
  end.

Definition turnLeft (d : HeroDirection) : HeroDirection :=
  match d with north => west | east => north | south => east | west => south end.

Definition turnRight (d : HeroDirection) : HeroDirection :=
  match d with north => east | east => south | south => west | west => north end.

(** The test shared by [isValidPosition], [getEnemyAhead] and
    [getAdjacentEnemies]: the entry stands at [pos] and is alive. *)
Definition liveAt (pos : Position) (e : string * EnemyData) : bool :=
  (pos_x (position e.2) =? pos_x pos)
  && (pos_y (position e.2) =? pos_y pos)
  && (0 <? health e.2).

Definition heroAttackDamage : Z := 20.

Definition deathMessage : string := "💀 Your hero has fallen! Try again.".
Definition questComplete : string := "🎉 Quest Complete!".

Section Scene.

Variable level : Level.

Definition isWall (pos : Position) : bool :=
  match js_index (grid level) (pos_y pos) with
  | Some row =>
      match js_index row (pos_x pos) with
      | Some c => bool_decide (cell_type c = wall)
      | None => false
      end
  | None => false
  end.

Definition isValidPosition (s : State) (pos : Position) : bool :=
  if (pos_x pos <? 0) || (gridWidth level <=? pos_x pos) then false
  else if (pos_y pos <? 0) || (gridHeight level <=? pos_y pos) then false
  else if isWall pos then false
  else negb (existsb (liveAt pos) (enemyMap s)).

(** ** Collecting *)

Definition collectibleHere (s : State) (c : Collectible) : bool :=
  (pos_x (collectible_position c) =? pos_x (heroPosition s))
  && (pos_y (collectible_position c) =? pos_y (heroPosition s))
  && negb (bool_decide (collectible_id c ∈ collectedIds s)).

Definition collectGem (s : State) : bool * State :=
  match List.find (collectibleHere s) (collectibles level) with
  | None => (false, s)
  | Some collectible =>
      (true, set_collectedIds ({[collectible_id collectible]} ∪ collectedIds s) s)
  end.

(** ** Goal evaluation *)

Definition countOr1 (count : option Z) : Z :=
  match count with
  | Some 0 | None => 1
  | Some n => n
  end.

Definition goalMet (s : State) (g : LevelGoal) : bool :=
  match goal_type g with
  | reach_position =>
      match goal_target g with
      | Some target =>
          (pos_x (heroPosition s) =? pos_x target)
          && (pos_y (heroPosition s) =? pos_y target)
      | None => false
      end
  | collect_all =>
      bool_decide (size (collectedIds s) = length (collectibles level))
  | collect_type =>
      let collected :=
        List.filter
          (fun c => bool_decide (Some (collectible_type c) = goal_collectibleType g)
                    && bool_decide (collectible_id c ∈ collectedIds s))
          (collectibles level) in
      countOr1 (goal_count g) <=? Z.of_nat (length collected)
  | defeat_enemies =>
      bool_decide (size (defeatedEnemies s) = length (enemies level))
  | survive => false
  end.

Definition goalMessage (s : State) (g : LevelGoal) : string :=
  if goalMet s g then "✅ " +:+ goal_description g
  else "❌ " +:+ goal_description g.

Definition checkWinCondition (s : State) : State :=
  let allGoalsMet := forallb (goalMet s) (goals level) in
  let messages := map (goalMessage s) (goals level) in
  if allGoalsMet then emit (Complete true questComplete) s
  else emit (Complete false ("Quest incomplete:" +:+ newline +:+ join newline messages)) s.

End Scene.

(** ** Combat *)

Definition allDirections : list HeroDirection := [north; east; south; west].

Definition getEnemyAhead (s : State) : option (string * EnemyData) :=
  let aheadPos := getPositionInDirection (heroPosition s) (heroDirection s) 1 in
  List.find (liveAt aheadPos) (enemyMap s).

Definition getAdjacentEnemies (s : State) : list (string * EnemyData) :=
  flat_map
    (fun dir =>
       let adjacentPos := getPositionInDirection (heroPosition s) dir 1 in
       List.filter (liveAt adjacentPos) (enemyMap s))
    allDirections.

Definition handleHeroDeath (s : State) : State :=
  emit (Complete false deathMessage) (set_heroDead true s).

Definition performEnemyAttack (e : string * EnemyData) (s : State) : State :=
  let s1 := emit (EnemyAttack e.1) (set_heroHealth (heroHealth s - damage e.2) s) in
  if heroHealth s1 <=? 0 then handleHeroDeath s1 else s1.

(** The [for] loop of one pass: it stops at the first enemy that finds the
    hero's health spent. *)
Fixpoint attackPass (adjacentEnemies : list (string * EnemyData)) (s : State)
  : State :=
  match adjacentEnemies with
  | [] => s
  | enemy :: rest =>
      if heroHealth s <=? 0 then s
      else attackPass rest (performEnemyAttack enemy s)
  end.

(** [fuel] bounds the passes made after the first one. *)
Fixpoint checkAdjacentEnemies (fuel : nat) (s : State) : Outcome unit :=
  if (0 <? heroHealth s) && negb (heroDead s) then
    match getAdjacentEnemies s with
    | [] => Done tt s
    | adjacentEnemies =>
        let s' := attackPass adjacentEnemies s in
        if heroHealth s' <=? 0 then Done tt s'
        else match fuel with
             | O => OutOfFuel s'
             | S fuel' => checkAdjacentEnemies fuel' s'
             end
    end
  else Done tt s.

(** [data.health -= attackDamage] writes into the object that
    [getEnemyAhead] returned, which is the first entry of the map that is
    alive on the cell ahead: the new health shows in that entry. *)
Definition withHealth (h : Z) (d : EnemyData) : EnemyData :=
  mkEnemyData h (maxHealth d) (damage d) (position d).

Fixpoint updateFirst (found : string * EnemyData -> bool)
  (f : EnemyData -> EnemyData) (m : list (string * EnemyData))
  : list (string * EnemyData) :=
  match m with
  | [] => []
  | e :: m' =>
      if found e then (e.1, f e.2) :: m' else e :: updateFirst found f m'
  end.

Definition attackEnemy (s : State) : State :=
  match getEnemyAhead s with
  | None => s
  | Some (id, data) =>
      let aheadPos := getPositionInDirection (heroPosition s) (heroDirection s) 1 in
      let h := health data - heroAttackDamage in
      let s1 := set_enemyMap (updateFirst (liveAt aheadPos) (withHealth h) (enemyMap s)) s in
      if h <=? 0 then set_defeatedEnemies ({[id]} ∪ defeatedEnemies s1) s1
      else emit (CounterAttack id) (set_heroHealth (heroHealth s1 - damage data) s1)
  end.

Definition turnHero (toLeft : bool) (s : State) : State :=
  set_heroDirection
    (if toLeft then turnLeft (heroDirection s) else turnRight (heroDirection s)) s.

(** ** The command interpreter *)

Definition createEnemy (m : list (string * EnemyData)) (enemy : Enemy)
  : list (string * EnemyData) :=
  map_set (enemy_id enemy)
    (mkEnemyData (enemy_health enemy) (enemy_health enemy) (enemy_damage enemy)
       (enemy_position enemy)) m.

Definition drawEnemies (l : Level) : list (string * EnemyData) :=
  fold_left createEnemy (enemies l) [].

Definition resetGame (l : Level) : State :=
  mkState (startPosition l) (directionFromType (startDirection l)) ∅
    100 100 false (drawEnemies l) ∅ [].

Section Interpreter.

Variable level : Level.

Definition moveHero (fuel : nat) (steps : Z) (s : State) : Outcome bool :=
  let newPos := getPositionInDirection (heroPosition s) (heroDirection s) steps in
  if negb (isValidPosition level s newPos) then Done false s
  else bind (checkAdjacentEnemies fuel (set_heroPosition newPos s))
            (fun _ s' => Done true s').

(** A [switch] without a default branch: commands are plain strings. *)
Definition executeCommand (fuel : nat) (command : string) (s : State)
  : Outcome unit :=
  if decide (command = "move_forward") then
    bind (moveHero fuel 1 s) (fun _ s' => Done tt s')
  else if decide (command = "move_backward") then
    bind (moveHero fuel (-1) s) (fun _ s' => Done tt s')
  else if decide (command = "turn_left") then Done tt (turnHero true s)
  else if decide (command = "turn_right") then Done tt (turnHero false s)
  else if decide (command = "collect_sample") then Done tt (collectGem level s).2
  else if decide (command = "attack") then Done tt (attackEnemy s)
  else Done tt s.

(** The [for] loop of [executeCommands] and the code after it; the early
    [return] inside the loop skips the goal evaluation. *)
Fixpoint runCommands (fuel : nat) (commands : list string) (s : State)
  : Outcome unit :=
  match commands with
  | [] => Done tt (if negb (heroDead s) then checkWinCondition level s else s)
  | command :: rest =>
      if heroDead s || (heroHealth s <=? 0) then Done tt s
      else bind (executeCommand fuel command s) (fun _ s' => runCommands fuel rest s')
  end.

(** A run on an idle scene ([isExecuting] false, as it is whenever no run
    is under way): the state is reset from the level first. *)
Definition executeCommands (fuel : nat) (commands : list string) : Outcome unit :=
  runCommands fuel commands (resetGame level).

End Interpreter.


(** * Building a level's grid (the level catalogue's helpers) *)

(** [createEmptyGrid]: [height] rows of [width] floor cells each. *)
Definition createEmptyGrid (width height : Z) : list (list GridCell) :=
  replicate (Z.to_nat height) (replicate (Z.to_nat width) (mkCell floor)).

(** [setCell] writes only where the grid has a cell. *)
Definition setCell (g : list (list GridCell)) (x y : Z) (type : CellType)
  : list (list GridCell) :=
  match js_index g y with
  | Some row =>
      match js_index row x with
      | Some _ => <[Z.to_nat y := <[Z.to_nat x := mkCell type]> row]> g
      | None => g
      end
  | None => g
  end.

(** * Saved code in the browser's storage (src/lib/utils/storage.ts)

    The storage is a map from keys to strings.  Whether the browser takes a
    write is its own decision ([setItem] throws when storage is missing,
    disabled or full): [accepts items key value] says that writing [value]
    under [key] into [items] succeeds.  Reads and removals are only made
    after a successful test write and are taken to succeed. *)

Definition PROGRESS : string := "codecombat_progress".
Definition LEVEL_CODE_PREFIX : string := "codecombat_code_".
Definition SETTINGS : string := "codecombat_settings".
Definition SESSION : string := "codecombat_session".
Definition ACHIEVEMENTS : string := "codecombat_achievements".

Definition testKey : string := "__codecombat_storage_test__".

Section LocalStorage.

Variable accepts : gmap string string -> string -> string -> bool.

Definition isAvailable (items : gmap string string)
  : bool * gmap string string :=
  if accepts items testKey "test" then (true, delete testKey items)
  else (false, items).

Definition levelCodeKey (levelId : string) : string :=
  LEVEL_CODE_PREFIX +:+ levelId.

Definition getLevelCode (levelId : string) (items : gmap string string)
  : option string * gmap string string :=
  let (available, items1) := isAvailable items in
  if negb available then (None, items1)
  else (items1 !! levelCodeKey levelId, items1).

Definition saveLevelCode (levelId code : string) (items : gmap string string)
  : bool * gmap string string :=
  let (available, items1) := isAvailable items in
  if negb available then (false, items1)
  else if accepts items1 (levelCodeKey levelId) code
       then (true, <[levelCodeKey levelId := code]> items1)
       else (false, items1).

Definition clearLevelCode (levelId : string) (items : gmap string string)
  : bool * gmap string string :=
  let (available, items1) := isAvailable items in
  if negb available then (false, items1)
  else (true, delete (levelCodeKey levelId) items1).

(** The keys collected first and removed afterwards are those that start
    with the level-code prefix. *)
Definition clearAllData (items : gmap string string)
  : bool * gmap string string :=
  let (available, items1) := isAvailable items in
  if negb available then (false, items1)
  else
    let items2 :=
      delete ACHIEVEMENTS (delete SESSION (delete SETTINGS (delete PROGRESS items1))) in
    (true,
     filter (fun kv => String.prefix LEVEL_CODE_PREFIX kv.1 = false) items2).

End LocalStorage.
(** * Vocabulary of the specification *)

(** Two states with the same world: everything except the hero's health,
    the death flag and the event log. *)
Definition sameWorld (s s' : State) : Prop :=
  heroPosition s' = heroPosition s
  /\ heroDirection s' = heroDirection s
  /\ collectedIds s' = collectedIds s
  /\ enemyMap s' = enemyMap s
  /\ defeatedEnemies s' = defeatedEnemies s.

(** The cell of the level's grid at a position, if the grid has one. *)
Definition cellAt (level : Level) (pos : Position) : option GridCell :=
  row ← js_index (grid level) (pos_y pos); js_index row (pos_x pos).

(** The three reasons for which the specification rejects a move. *)
Definition outsideGrid (level : Level) (pos : Position) : Prop :=
  pos_x pos < 0 \/ gridWidth level <= pos_x pos
  \/ pos_y pos < 0 \/ gridHeight level <= pos_y pos.

Definition wallAt (level : Level) (pos : Position) : Prop :=
  exists c, cellAt level pos = Some c /\ cell_type c = wall.

Definition liveEnemyAt (s : State) (pos : Position) : Prop :=
  exists id d, (id, d) ∈ enemyMap s /\ position d = pos /\ 0 < health d.

Definition blocked (level : Level) (s : State) (pos : Position) : Prop :=
  outsideGrid level pos \/ wallAt level pos \/ liveEnemyAt s pos.


(** ** Levels used as concrete inputs *)

Definition floorCell : GridCell := mkCell floor.

(** Level 2-1, "The Orc Guard", of the level catalogue, with the command
    list of its [solutionCode]. *)
Definition level_2_1 : Level :=
  mkLevel
    [ [floorCell; floorCell; floorCell; floorCell];
      [mkCell start; floorCell; floorCell; mkCell goal];
      [floorCell; floorCell; floorCell; floorCell] ]
    4 3 (mkPos 0 1) d_right
    [ mkGoal defeat_enemies None None None "Defeat the orc";
      mkGoal reach_position (Some (mkPos 3 1)) None None "Reach the goal" ]
    []
    [ mkEnemy "orc1" (mkPos 2 1) 40 10 ]
    50.

Definition solution_2_1 : list string :=
  ["move_forward"; "attack"; "attack"; "move_forward"].

(** An open 5x3 grid, the hero at (0,1) facing east. *)
Definition openGrid53 : list (list GridCell) :=
  replicate 3 (replicate 5 floorCell).

Definition openLevel (gs : list LevelGoal) (cs : list Collectible)
  (es : list Enemy) (limit : Z) : Level :=
  mkLevel openGrid53 5 3 (mkPos 0 1) d_right gs cs es limit.

(** A level with a copy of [l]'s content and another command limit. *)
Definition withMaxExecutionSteps (limit : Z) (l : Level) : Level :=
  mkLevel (grid l) (gridWidth l) (gridHeight l) (startPosition l)
    (startDirection l) (goals l) (collectibles l) (enemies l) limit.

(** The commands the [switch] of [executeCommand] has a case for. *)
Definition knownCommands : list string :=
  ["move_forward"; "move_backward"; "turn_left"; "turn_right";
   "collect_sample"; "attack"].

(** The hero can still act: the test at the head of the command loop. *)
Definition heroActive (s : State) : Prop :=
  heroDead s = false /\ 0 < heroHealth s.

Definition reachStart : LevelGoal :=
  mkGoal reach_position (Some (mkPos 0 1)) None None "Hold the gate".

Definition stayAlive : LevelGoal :=
  mkGoal survive None None None "Stay alive".

(** Three steps to the goal under a command limit of two. *)
Definition shortLimitLevel : Level :=
  openLevel [mkGoal reach_position (Some (mkPos 3 1)) None None "Reach the goal"]
    [] [] 2.

(** A goal list whose only unmet candidate is [survive]. *)
Definition surviveLevel : Level := openLevel [reachStart; stayAlive] [] [] 50.

(** An enemy right in front of the hero whose second counter-attack spends
    the hero's health. *)
Definition bossLevel : Level :=
  openLevel [reachStart] [] [mkEnemy "boss" (mkPos 1 1) 300 50] 50.

(** ** Collecting *)

(** A collectible lying on the hero's cell whose id is not collected yet. *)
Definition uncollectedHere (s : State) (c : Collectible) : Prop :=
  collectible_position c = heroPosition s
  /\ collectible_id c ∉ collectedIds s.

Definition collectibleIds (level : Level) : gset string :=
  list_to_set (map collectible_id (collectibles level)).

(** Two collectibles on the start cell. *)
Definition twoGemsLevel : Level :=
  openLevel []
    [mkCollectible "gem1" gem (mkPos 0 1); mkCollectible "gem2" gem (mkPos 0 1)]
    [] 50.

(** ** The hero's place *)

(** The hero stands inside the grid, not on a wall and not on a live enemy. *)
Definition heroPlacedWell (level : Level) (s : State) : Prop :=
  (0 <= pos_x (heroPosition s) < gridWidth level)
  /\ (0 <= pos_y (heroPosition s) < gridHeight level)
  /\ ~ wallAt level (heroPosition s)
  /\ ~ liveEnemyAt s (heroPosition s).

(** The same of the start position, read off the level's own data. *)
Definition startPlacedWell (level : Level) : Prop :=
  (0 <= pos_x (startPosition level) < gridWidth level)
  /\ (0 <= pos_y (startPosition level) < gridHeight level)
  /\ ~ wallAt level (startPosition level)
  /\ forall e, e ∈ enemies level -> 0 < enemy_health e ->
               enemy_position e <> startPosition level.

(** ** The adjacency check *)

(** The attacks of one full pass, as events. *)
Definition passEvents (adj : list (string * EnemyData)) : list Event :=
  map (fun e => EnemyAttack e.1) adj.

Definition totalDamage (adj : list (string * EnemyData)) : Z :=
  foldr (fun e acc => damage e.2 + acc) 0 adj.

(** An entry of the enemy map that is alive and one step away from the
    hero along an axis. *)
Definition liveAdjacent (s : State) (e : string * EnemyData) : bool :=
  (0 <? health e.2)
  && (Z.abs (pos_x (position e.2) - pos_x (heroPosition s))
      + Z.abs (pos_y (position e.2) - pos_y (heroPosition s)) =? 1).

(** The order of the specification's words: the live adjacent enemies as
    they are stored. *)
Definition adjacentInStoredOrder (s : State) : list (string * EnemyData) :=
  List.filter (liveAdjacent s) (enemyMap s).

(** The side of the hero on which a neighbouring cell lies. *)
Definition bearing (hero p : Position) : option HeroDirection :=
  let dx := pos_x p - pos_x hero in
  let dy := pos_y p - pos_y hero in
  if (dx =? 0) && (dy =? -1) then Some north
  else if (dx =? 1) && (dy =? 0) then Some east
  else if (dx =? 0) && (dy =? 1) then Some south
  else if (dx =? -1) && (dy =? 0) then Some west
  else None.

Definition standsOn (s : State) (dir : HeroDirection) (e : string * EnemyData)
  : bool :=
  bool_decide (bearing (heroPosition s) (position e.2) = Some dir).

(** A hero between a guard to the south, stored first, and one to the
    north, stored second; each hit takes 60. *)
Definition twoGuardsLevel : Level :=
  openLevel []
    []
    [ mkEnemy "south_guard" (mkPos 1 2) 20 60;
      mkEnemy "north_guard" (mkPos 1 0) 20 60 ]
    50.

(** A harmless neighbour next to a harmful one. *)
Definition idleAndBiterLevel : Level :=
  openLevel []
    []
    [ mkEnemy "idle" (mkPos 1 0) 20 0;
      mkEnemy "biter" (mkPos 1 2) 20 30 ]
    50.

(** A single harmless neighbour. *)
Definition idleLevel : Level :=
  openLevel [] [] [ mkEnemy "idle" (mkPos 1 0) 20 0 ] 50.

(** The state right after the hero has stepped from the start to (1,1). *)
Definition steppedIn (level : Level) : State :=
  set_heroPosition (mkPos 1 1) (resetGame level).

(** * Vocabulary of the further properties *)

(** The cell in front of the hero. *)
Definition aheadPos (s : State) : Position :=
  getPositionInDirection (heroPosition s) (heroDirection s) 1.

(** The calls of [onComplete] made so far, in order. *)
Definition isComplete (e : Event) : bool :=
  match e with Complete _ _ => true | _ => false end.

Definition verdicts (s : State) : list Event :=
  List.filter isComplete (events s).

(** The entry the scene creates for a level's enemy. *)
Definition enemyEntry (e : Enemy) : string * EnemyData :=
  (enemy_id e,
   mkEnemyData (enemy_health e) (enemy_health e) (enemy_damage e)
     (enemy_position e)).

(** [n] attack commands in a row, as the resolver alone sees them. *)
Definition attackTimes (n : nat) (s : State) : State :=
  Nat.iter n attackEnemy s.

(** Before the end of a run: either nothing has been reported and the hero
    is not marked dead, or the hero has died in an adjacency check and the
    defeat is the one thing reported. *)
Definition verdictPending (s : State) : Prop :=
  (heroDead s = false /\ verdicts s = [])
  \/ (heroDead s = true /\ heroHealth s <= 0
      /\ verdicts s = [Complete false deathMessage]).

(** What [checkWinCondition] reports in a state. *)
Definition goalVerdict (level : Level) (s : State) : Event :=
  if forallb (goalMet level s) (goals level)
  then Complete true questComplete
  else Complete false
         ("Quest incomplete:" +:+ newline
            +:+ join newline (map (goalMessage level s) (goals level))).

(** An entry of the enemy map against the entry the run started with: the
    same enemy on the same cell, with the same damage and maximum health,
    and no more health than it had. *)
Definition sameEnemy (e0 e : string * EnemyData) : Prop :=
  e.1 = e0.1
  /\ position e.2 = position e0.2
  /\ damage e.2 = damage e0.2
  /\ maxHealth e.2 = maxHealth e0.2
  /\ health e.2 <= health e0.2.

(** The defeated set records exactly the entries brought from positive
    health to 0 or below. *)
Definition defeatRecorded (s : State) (e : string * EnemyData) : Prop :=
  health e.2 <= maxHealth e.2
  /\ (e.1 ∈ defeatedEnemies s <-> health e.2 <= 0 /\ 0 < maxHealth e.2).

Definition enemiesTracked (level : Level) (s : State) : Prop :=
  NoDup (map fst (enemyMap s))
  /\ Forall2 sameEnemy (drawEnemies level) (enemyMap s)
  /\ Forall (defeatRecorded s) (enemyMap s)
  /\ defeatedEnemies s ⊆ list_to_set (map fst (enemyMap s)).

(** A goal of each kind that needs no further data. *)
Definition collectAllGoal (description : string) : LevelGoal :=
  mkGoal collect_all None None None description.


(** Two collectibles on the start cell that share one id. *)
Definition twinGemsLevel : Level :=
  openLevel [collectAllGoal "Collect everything"]
    [mkCollectible "gem" gem (mkPos 0 1); mkCollectible "gem" gem (mkPos 0 1)]
    [] 50.

(** The cell of a grid at a position, if the grid has one. *)
Definition gridAt (g : list (list GridCell)) (pos : Position) : option GridCell :=
  row ← js_index g (pos_y pos); js_index row (pos_x pos).

(** A level that differs from [l] in its grid only. *)
Definition withGrid (g : list (list GridCell)) (l : Level) : Level :=
  mkLevel g (gridWidth l) (gridHeight l) (startPosition l) (startDirection l)
    (goals l) (collectibles l) (enemies l) (maxExecutionSteps l).

(** A storage that takes every write, and one that takes none. *)
Definition alwaysAccepts (items : gmap string string) (k v : string) : bool := true.
Definition neverAccepts (items : gmap string string) (k v : string) : bool := false.

(** A storage with the code saved for two levels and a key of another
    application. *)
Definition sampleItems : gmap string string :=
  <[levelCodeKey "1-1" := "move_forward()"]>
    (<[levelCodeKey "1-2" := "turn_left()"]>
       (<["other_app" := "kept"]> ∅)).
(** * Properties *)

(** ** Frame lemmas: what the retaliation code leaves alone *)

Lemma sameWorld_refl s : sameWorld s s.
Proof. by repeat split. Qed.

Lemma sameWorld_trans s1 s2 s3 :
  sameWorld s1 s2 -> sameWorld s2 s3 -> sameWorld s1 s3.
Proof.
  intros (?&?&?&?&?) (?&?&?&?&?); repeat split; congruence.
Qed.

Lemma performEnemyAttack_sameWorld e s : sameWorld s (performEnemyAttack e s).
Proof.
  unfold performEnemyAttack; cbn.
  by destruct (_ <=? _); repeat split.
Qed.

Lemma attackPass_sameWorld adj s : sameWorld s (attackPass adj s).
Proof.
  revert s; induction adj as [|e adj IH]; intros s; cbn.
  - apply sameWorld_refl.
  - destruct (heroHealth s <=? 0); [apply sameWorld_refl|].
    eapply sameWorld_trans; [apply performEnemyAttack_sameWorld | apply IH].
Qed.

Lemma getAdjacentEnemies_sameWorld s s' :
  sameWorld s s' -> getAdjacentEnemies s' = getAdjacentEnemies s.
Proof.
  intros (Hp&_&_&Hm&_); unfold getAdjacentEnemies; by rewrite Hp, Hm.
Qed.

Lemma checkAdjacentEnemies_unfold fuel s :
  checkAdjacentEnemies fuel s =
  if (0 <? heroHealth s) && negb (heroDead s) then
    match getAdjacentEnemies s with
    | [] => Done tt s
    | adjacentEnemies =>
        let s' := attackPass adjacentEnemies s in
        if heroHealth s' <=? 0 then Done tt s'
        else match fuel with
             | O => OutOfFuel s'
             | S fuel' => checkAdjacentEnemies fuel' s'
             end
    end
  else Done tt s.
Proof. by destruct fuel. Qed.

Lemma checkAdjacentEnemies_sameWorld fuel s :
  sameWorld s (outcome_state (checkAdjacentEnemies fuel s)).
Proof.
  revert s; induction fuel as [|fuel IH]; intros s;
    rewrite checkAdjacentEnemies_unfold;
    (destruct (_ && _); [|apply sameWorld_refl]);
    (destruct (getAdjacentEnemies s) as [|e adj]; [apply sameWorld_refl|]);
    cbv zeta;
    (destruct (heroHealth (attackPass (e :: adj) s) <=? 0);
      [apply attackPass_sameWorld|]).
  - apply attackPass_sameWorld.
  - eapply sameWorld_trans; [apply attackPass_sameWorld | apply IH].
Qed.

(** ** Moves (C5) *)

Lemma liveAt_true pos e :
  liveAt pos e = true <-> position e.2 = pos /\ 0 < health e.2.
Proof.
  unfold liveAt; destruct e as [id [h mh d [ex ey]]], pos as [x y]; cbn.
  rewrite !andb_true_iff, !Z.eqb_eq, Z.ltb_lt.
  split; [intros [[-> ->] ?]; by split | intros [[= -> ->] ?]; by repeat split].
Qed.

Lemma existsb_liveAt pos m :
  existsb (liveAt pos) m = true <->
  exists id d, (id, d) ∈ m /\ position d = pos /\ 0 < health d.
Proof.
  rewrite existsb_exists; split.
  - intros ([id d] & Hin & Hlive); exists id, d.
    apply liveAt_true in Hlive; split; [by apply list_elem_of_In | done].
  - intros (id & d & Hin & Hpos & Hh); exists (id, d).
    split; [by apply list_elem_of_In | by apply liveAt_true].
Qed.

Lemma isWall_true level pos :
  isWall level pos = true <->
  exists c, cellAt level pos = Some c /\ cell_type c = wall.
Proof.
  unfold isWall, cellAt.
  destruct (js_index (grid level) (pos_y pos)) as [row|]; cbn;
    [destruct (js_index row (pos_x pos)) as [c|]; cbn|].
  - rewrite bool_decide_eq_true; split; [intros ?; by exists c | by intros (? & [= <-] & ?)].
  - split; [done | by intros (? & ? & ?)].
  - split; [done | by intros (? & ? & ?)].
Qed.

Lemma isValidPosition_false level s pos :
  isValidPosition level s pos = false <-> blocked level s pos.
Proof.
  unfold isValidPosition, blocked, outsideGrid.
  destruct (pos_x pos <? 0) eqn:Hx0; [split; [intros _; lia | done]|].
  destruct (gridWidth level <=? pos_x pos) eqn:Hxw; [split; [intros _; lia | done]|].
  destruct (pos_y pos <? 0) eqn:Hy0; [split; [intros _; lia | done]|].
  destruct (gridHeight level <=? pos_y pos) eqn:Hyh; [split; [intros _; lia | done]|].
  cbn. destruct (isWall level pos) eqn:Hw.
  - split; [intros _; right; left; by apply isWall_true | done].
  - rewrite negb_false_iff, existsb_liveAt. split; [intros ?; by right; right|].
    intros [?|[Hwall|?]]; [lia | | done].
    apply isWall_true in Hwall; congruence.
Qed.

Lemma isValidPosition_true level s pos :
  isValidPosition level s pos = true <-> ~ blocked level s pos.
Proof.
  rewrite <- isValidPosition_false; by destruct (isValidPosition level s pos).
Qed.

Lemma moveHero_rejected level fuel steps s :
  blocked level s (getPositionInDirection (heroPosition s) (heroDirection s) steps) ->
  moveHero level fuel steps s = Done false s.
Proof.
  intros Hb; apply isValidPosition_false in Hb.
  unfold moveHero; by rewrite Hb.
Qed.

Lemma moveHero_applied level fuel steps s :
  let target := getPositionInDirection (heroPosition s) (heroDirection s) steps in
  ~ blocked level s target ->
  moveHero level fuel steps s =
    bind (checkAdjacentEnemies fuel (set_heroPosition target s))
         (fun _ s' => Done true s')
  /\ heroPosition (outcome_state (moveHero level fuel steps s)) = target.
Proof.
  intros target Hb; apply isValidPosition_true in Hb.
  unfold moveHero; fold target; rewrite Hb; cbn; split; [done|].
  pose proof (checkAdjacentEnemies_sameWorld fuel (set_heroPosition target s)) as (Hp&_).
  by destruct (checkAdjacentEnemies fuel (set_heroPosition target s)).
Qed.

(** A command that leaves the state as it is lets the loop go on with the
    commands after it. *)
Lemma runCommands_noop level fuel command rest s :
  executeCommand level fuel command s = Done tt s ->
  heroActive s ->
  runCommands level fuel (command :: rest) s = runCommands level fuel rest s.
Proof.
  intros Hexec [Hdead Hhealth]; cbn.
  rewrite Hdead, Hexec; cbn.
  by destruct (Z.leb_spec (heroHealth s) 0); [lia|].
Qed.

(** C5.  A move command aims at the hero's cell plus the unit delta of the
    facing direction times +1 (forward) or -1 (backward).  The move is
    rejected, returning false and leaving the whole state as it was, exactly
    when that cell lies outside the grid, is a wall, or holds a live enemy,
    and the run then goes on with the next command; in every other case the
    hero stands on the target cell afterwards and the move never reports
    false. *)
Theorem move_command_target_and_rejection
    (level : Level) (fuel : nat) (forward : bool) (s : State) :
  let steps := if forward then 1 else -1 in
  let command := if forward then "move_forward" else "move_backward" in
  let target :=
    mkPos (pos_x (heroPosition s) + pos_x (delta (heroDirection s)) * steps)
          (pos_y (heroPosition s) + pos_y (delta (heroDirection s)) * steps) in
  executeCommand level fuel command s =
    bind (moveHero level fuel steps s) (fun _ s' => Done tt s')
  /\ (blocked level s target ->
      moveHero level fuel steps s = Done false s
      /\ executeCommand level fuel command s = Done tt s
      /\ (heroActive s -> forall rest,
            runCommands level fuel (command :: rest) s
            = runCommands level fuel rest s))
  /\ (~ blocked level s target ->
      heroPosition (outcome_state (moveHero level fuel steps s)) = target
      /\ heroPosition (outcome_state (executeCommand level fuel command s)) = target
      /\ forall s', moveHero level fuel steps s <> Done false s')
  /\ (moveHero level fuel steps s = Done false s <-> blocked level s target).
Proof.
  intros steps command target.
  assert (Hcmd : executeCommand level fuel command s =
                 bind (moveHero level fuel steps s) (fun _ s' => Done tt s')).
  { subst command steps; by destruct forward. }
  assert (Hrej : blocked level s target -> moveHero level fuel steps s = Done false s).
  { apply moveHero_rejected. }
  assert (Happ : ~ blocked level s target ->
                 heroPosition (outcome_state (moveHero level fuel steps s)) = target
                 /\ forall s', moveHero level fuel steps s <> Done false s').
  { intros Hb. destruct (moveHero_applied level fuel steps s Hb) as [Heq Hpos].
    split; [exact Hpos|]. intros s'. rewrite Heq.
    by destruct (checkAdjacentEnemies fuel _). }
  split; [exact Hcmd|]. split; [|split].
  - intros Hb.
    assert (Hnoop : executeCommand level fuel command s = Done tt s)
      by by rewrite Hcmd, (Hrej Hb).
    split; [by apply Hrej|]. split; [exact Hnoop|].
    intros Hactive rest. by apply runCommands_noop.
  - intros Hb; destruct (Happ Hb) as [Hpos Hne]; repeat split; [done| |done].
    rewrite Hcmd. by destruct (moveHero level fuel steps s).
  - split; [|apply Hrej].
    intros Hmove. destruct (decide (isValidPosition level s target = false)) as [Hv|Hv].
    + by apply isValidPosition_false.
    + apply not_false_is_true, isValidPosition_true, Happ in Hv.
      destruct Hv as [_ Hne]. by elim (Hne s).
Qed.

Lemma move_command_witness :
  let level := openLevel [] [] [mkEnemy "e" (mkPos 1 1) 20 10] 50 in
  let s := resetGame level in
  (moveHero level 0 1 s = Done false s
   /\ executeCommand level 0 "move_forward" s = Done tt s
   /\ (heroActive s -> forall rest,
         runCommands level 0 ("move_forward" :: rest) s
         = runCommands level 0 rest s))
  /\ heroPosition (outcome_state (moveHero level 0 1 (turnHero false s))) = mkPos 0 2.
Proof.
  intros level s; split.
  - apply (move_command_target_and_rejection level 0%nat true s).
    right; right. exists "e", (mkEnemyData 20 20 10 (mkPos 1 1)).
    split; [apply list_elem_of_here | split; [reflexivity | cbn; lia]].
  - apply (move_command_target_and_rejection level 0%nat true (turnHero false s)).
    apply isValidPosition_true. reflexivity.
Defined.

(** ** More fuel never changes a finished run *)

Lemma checkAdjacentEnemies_mono fuel k s a s' :
  checkAdjacentEnemies fuel s = Done a s' ->
  checkAdjacentEnemies (fuel + k) s = Done a s'.
Proof.
  revert s; induction fuel as [|fuel IH]; intros s;
    rewrite (checkAdjacentEnemies_unfold (_ + k)), checkAdjacentEnemies_unfold;
    (destruct (_ && _); [|done]);
    (destruct (getAdjacentEnemies s) as [|e adj]; [done|]);
    cbv zeta; (destruct (heroHealth (attackPass (e :: adj) s) <=? 0); [done|]).
  - done.
  - cbn. apply IH.
Qed.

Lemma moveHero_mono level fuel k steps s b s' :
  moveHero level fuel steps s = Done b s' ->
  moveHero level (fuel + k) steps s = Done b s'.
Proof.
  unfold moveHero. destruct (negb _); [done|].
  destruct (checkAdjacentEnemies fuel _) as [[] s1|] eqn:Hc; [|done].
  by rewrite (checkAdjacentEnemies_mono _ k _ _ _ Hc).
Qed.

Lemma executeCommand_mono level fuel k command s a s' :
  executeCommand level fuel command s = Done a s' ->
  executeCommand level (fuel + k) command s = Done a s'.
Proof.
  unfold executeCommand.
  case_decide.
  { destruct (moveHero level fuel 1 s) as [b s1|] eqn:Hm; [|done].
    by rewrite (moveHero_mono _ _ k _ _ _ _ Hm). }
  case_decide.
  { destruct (moveHero level fuel (-1) s) as [b s1|] eqn:Hm; [|done].
    by rewrite (moveHero_mono _ _ k _ _ _ _ Hm). }
  done.
Qed.

Lemma runCommands_mono level fuel k commands s a s' :
  runCommands level fuel commands s = Done a s' ->
  runCommands level (fuel + k) commands s = Done a s'.
Proof.
  revert s; induction commands as [|c rest IH]; intros s; cbn; [done|].
  destruct (_ || _); [done|].
  destruct (executeCommand level fuel c s) as [[] s1|] eqn:He; [|done].
  rewrite (executeCommand_mono _ _ k _ _ _ _ He); cbn. apply IH.
Qed.

Lemma executeCommands_mono level fuel k commands a s' :
  executeCommands level fuel commands = Done a s' ->
  executeCommands level (fuel + k) commands = Done a s'.
Proof. apply runCommands_mono. Qed.

(** ** Unknown commands (C9) *)

(** C9.  A command that is none of the six strings the interpreter knows is
    a no-op: executing it returns normally with the very same state (hero
    position, direction, health, collected and defeated sets, enemies,
    events), and the command loop goes on with the commands after it. *)
Theorem unknown_command_ignored
    (level : Level) (fuel : nat) (command : string) (rest : list string)
    (s : State) :
  command ∉ knownCommands ->
  executeCommand level fuel command s = Done tt s
  /\ (heroActive s ->
      runCommands level fuel (command :: rest) s = runCommands level fuel rest s).
Proof.
  intros Hunknown.
  assert (Hexec : executeCommand level fuel command s = Done tt s).
  { unfold executeCommand.
    repeat (case_decide;
            [subst command; exfalso; apply Hunknown; unfold knownCommands;
             set_solver|]).
    done. }
  split; [exact Hexec|]. by apply runCommands_noop.
Qed.

Lemma unknown_command_witness :
  let s := resetGame level_2_1 in
  executeCommand level_2_1 0 "collect" s = Done tt s
  /\ runCommands level_2_1 0 ["collect"; "attack"] s
     = runCommands level_2_1 0 ["attack"] s.
Proof.
  intros s.
  destruct (unknown_command_ignored level_2_1 0%nat "collect" ["attack"] s)
    as [Hexec Hrun].
  - unfold knownCommands. intros Hin.
    repeat (apply elem_of_cons in Hin; destruct Hin as [Hin|Hin]; [discriminate|]).
    by apply elem_of_nil in Hin.
  - split; [exact Hexec|]. apply Hrun. split; [reflexivity | cbn; lia].
Defined.

(** ** The command limit (C2) *)

Lemma runCommands_limit_irrelevant limit level fuel commands s :
  runCommands (withMaxExecutionSteps limit level) fuel commands s
  = runCommands level fuel commands s.
Proof.
  revert s; induction commands as [|c rest IH]; intros s; cbn; [done|].
  destruct (_ || _); [done|].
  change (executeCommand (withMaxExecutionSteps limit level) fuel c s)
    with (executeCommand level fuel c s).
  destruct (executeCommand level fuel c s); cbn; [apply IH | done].
Qed.

(** C2 as amended.  The interpreter never reads [maxExecutionSteps]: with
    any other value of the limit the run of a command list is the same, in
    its final state and in what it reports.  A list longer than the limit
    is therefore run like any other one. *)
Theorem command_limit_not_consulted
    (limit : Z) (level : Level) (fuel : nat) (commands : list string) :
  executeCommands (withMaxExecutionSteps limit level) fuel commands
  = executeCommands level fuel commands.
Proof. apply runCommands_limit_irrelevant. Qed.

(** C2 as stated fails: three commands against a limit of two are all run,
    the hero ends three cells further and the run reports success. *)
Lemma command_limit_counterexample :
  maxExecutionSteps shortLimitLevel
    < Z.of_nat (length ["move_forward"; "move_forward"; "move_forward"])
  /\ forall fuel,
       executeCommands shortLimitLevel fuel
         ["move_forward"; "move_forward"; "move_forward"]
       = Done tt (mkState (mkPos 3 1) east ∅ 100 100 false [] ∅
                    [Complete true questComplete]).
Proof.
  split; [cbn; lia|]. intros fuel. by destruct fuel.
Qed.

(** ** The survive goal (C4) *)

(** C4 on the code.  [checkWinCondition] has no branch for [survive], so
    such a goal is never met; on [surviveLevel], whose other goal is met,
    the run reports failure with the survive goal as the failed item. *)
Theorem survive_goal_reported_unmet :
  (forall level s target count ctype description,
     goalMet level s (mkGoal survive target count ctype description) = false)
  /\ forall fuel,
       executeCommands surviveLevel fuel ["turn_left"]
       = Done tt (mkState (mkPos 0 1) north ∅ 100 100 false [] ∅
                    [Complete false
                       ("Quest incomplete:" +:+ newline +:+ "✅ Hold the gate"
                        +:+ newline +:+ "❌ Stay alive")]).
Proof. split; [done | intros fuel; reflexivity]. Qed.

(** ** The orc scenario (C1) *)

(** C1 on the code.  On level 2-1 the first [move_forward] puts the hero
    next to the orc, and the adjacency check repeats its pass until the
    hero's health is spent: ten hits, the hero dead on (1,1), the orc
    untouched, the three commands left never run. *)
Theorem orc_guard_solution_kills_hero (k : nat) :
  executeCommands level_2_1 (9 + k) solution_2_1
  = Done tt (mkState (mkPos 1 1) east ∅ 0 100 true
               [("orc1", mkEnemyData 40 40 10 (mkPos 2 1))] ∅
               (replicate 10 (EnemyAttack "orc1")
                  ++ [Complete false deathMessage])).
Proof. apply executeCommands_mono. vm_compute. reflexivity. Qed.

(** ** Death by counter-attack (C3) *)

(** Once the hero's health is spent the loop runs no further command. *)
Lemma runCommands_after_death level fuel command rest s :
  heroHealth s <= 0 ->
  runCommands level fuel (command :: rest) s = Done tt s.
Proof.
  intros Hle; cbn. apply Z.leb_le in Hle. rewrite Hle.
  by rewrite orb_true_r.
Qed.

(** C3 on the code.  The counter-attack inside [attackEnemy] lowers the
    hero's health without the death handling: on [bossLevel] the second
    attack leaves the hero at health 0 and not marked dead.  When that was
    the last command the goals are evaluated and the run reports success;
    when a command follows, the loop returns and nothing is reported. *)
Theorem counter_attack_death_unhandled (fuel : nat) :
  executeCommands bossLevel fuel ["attack"; "attack"]
  = Done tt (mkState (mkPos 0 1) east ∅ 0 100 false
               [("boss", mkEnemyData 260 300 50 (mkPos 1 1))] ∅
               [CounterAttack "boss"; CounterAttack "boss";
                Complete true questComplete])
  /\ executeCommands bossLevel fuel ["attack"; "attack"; "turn_left"]
     = Done tt (mkState (mkPos 0 1) east ∅ 0 100 false
                  [("boss", mkEnemyData 260 300 50 (mkPos 1 1))] ∅
                  [CounterAttack "boss"; CounterAttack "boss"]).
Proof. split; vm_compute; reflexivity. Qed.

(** ** Collecting (C8) *)

Lemma find_first {A : Type} (f : A -> bool) (l : list A) (x : A) :
  List.find f l = Some x <->
  exists before after,
    l = before ++ x :: after /\ f x = true
    /\ Forall (fun y => f y = false) before.
Proof.
  induction l as [|y l IH]; cbn.
  - split; [done | intros (before & after & Heq & _)]. by destruct before.
  - destruct (f y) eqn:Hy.
    + split.
      * intros [= ->]. by exists [], l.
      * intros ([|z before] & after & Heq & Hx & Hall).
        -- by injection Heq as -> _.
        -- injection Heq as -> _. apply Forall_cons in Hall as [Hz _]. congruence.
    + rewrite IH; split.
      * intros (before & after & -> & Hx & Hall).
        exists (y :: before), after. repeat split; [done|]. by constructor.
      * intros ([|z before] & after & Heq & Hx & Hall).
        -- injection Heq as -> _. congruence.
        -- injection Heq as -> ->. apply Forall_cons in Hall as [_ Hall].
           by exists before, after.
Qed.

Lemma find_absent {A : Type} (f : A -> bool) (l : list A) :
  List.find f l = None <-> Forall (fun y => f y = false) l.
Proof.
  induction l as [|y l IH]; cbn; [by split|].
  destruct (f y) eqn:Hy.
  - split; [done | intros [? _]%Forall_cons; congruence].
  - rewrite IH. split; [by constructor | by intros [_ ?]%Forall_cons].
Qed.

Lemma collectibleHere_true s c :
  collectibleHere s c = true <-> uncollectedHere s c.
Proof.
  unfold collectibleHere, uncollectedHere.
  destruct (collectible_position c) as [cx cy], (heroPosition s) as [hx hy]; cbn.
  rewrite !andb_true_iff, !Z.eqb_eq, negb_true_iff, bool_decide_eq_false.
  split; [intros [[-> ->] ?]; by split | intros [[= -> ->] ?]; by repeat split].
Qed.

Lemma collectibleHere_false s c :
  collectibleHere s c = false <-> ~ uncollectedHere s c.
Proof.
  rewrite <- collectibleHere_true. by destruct (collectibleHere s c).
Qed.

Lemma collectGem_found level s before c after :
  collectibles level = before ++ c :: after ->
  uncollectedHere s c ->
  Forall (fun c' => ~ uncollectedHere s c') before ->
  collectGem level s
  = (true, set_collectedIds ({[collectible_id c]} ∪ collectedIds s) s).
Proof.
  intros Heq Hc Hbefore. unfold collectGem.
  assert (List.find (collectibleHere s) (collectibles level) = Some c) as ->; [|done].
  apply find_first. exists before, after. repeat split; [done| |].
  - by apply collectibleHere_true.
  - eapply Forall_impl; [exact Hbefore|]. intros c'. apply collectibleHere_false.
Qed.

Lemma collectGem_none level s :
  Forall (fun c => ~ uncollectedHere s c) (collectibles level) ->
  collectGem level s = (false, s).
Proof.
  intros Hall. unfold collectGem.
  assert (List.find (collectibleHere s) (collectibles level) = None) as ->; [|done].
  apply find_absent. eapply Forall_impl; [exact Hall|].
  intros c'. apply collectibleHere_false.
Qed.

(** Every call either adds one new id of the level or changes nothing. *)
Lemma collectGem_cases level s :
  (exists c, c ∈ collectibles level /\ uncollectedHere s c
     /\ collectGem level s
        = (true, set_collectedIds ({[collectible_id c]} ∪ collectedIds s) s))
  \/ (Forall (fun c => ~ uncollectedHere s c) (collectibles level)
      /\ collectGem level s = (false, s)).
Proof.
  unfold collectGem.
  destruct (List.find (collectibleHere s) (collectibles level)) as [c|] eqn:Hfind.
  - left. exists c. apply find_some in Hfind as [Hin Hc].
    split; [by apply list_elem_of_In|]. split; [by apply collectibleHere_true | done].
  - right. split; [|done]. apply find_absent in Hfind.
    eapply Forall_impl; [exact Hfind|]. intros c'. apply collectibleHere_false.
Qed.

Lemma collectGem_size level s :
  let s' := (collectGem level s).2 in
  collectedIds s ⊆ collectedIds s'
  /\ (size (collectedIds s')
      = if (collectGem level s).1 then S (size (collectedIds s))
        else size (collectedIds s))%nat
  /\ (collectedIds s ⊆ collectibleIds level ->
      collectedIds s' ⊆ collectibleIds level).
Proof.
  destruct (collectGem_cases level s) as [(c & Hin & [_ Hnew] & ->)|[_ ->]]; cbn.
  - split; [set_solver|]. split.
    + rewrite size_union by set_solver. by rewrite size_singleton.
    + intros Hsub. apply union_subseteq; split; [|done].
      apply singleton_subseteq_l. unfold collectibleIds.
      apply elem_of_list_to_set, list_elem_of_fmap. by exists c.
  - by repeat split.
Qed.

Lemma size_collectibleIds level :
  (size (collectibleIds level) <= length (collectibles level))%nat.
Proof.
  unfold collectibleIds.
  induction (collectibles level) as [|c l IH]; cbn; [by rewrite size_empty|].
  rewrite size_union_alt, size_singleton.
  assert (Hsub : list_to_set (map collectible_id l) ∖ {[collectible_id c]}
                 ⊆ (list_to_set (map collectible_id l) : gset string))
    by (by apply subseteq_difference_l).
  apply subseteq_size in Hsub. lia.
Qed.

(** ** Invariants of a run

    A property of the state that every state change of the interpreter
    preserves holds of whatever state a run is in when it ends or when its
    fuel is spent. *)
Section RunInvariant.

Variable level : Level.
Variable P : State -> Prop.

Hypothesis P_move :
  forall s pos, P s -> isValidPosition level s pos = true ->
                P (set_heroPosition pos s).
Hypothesis P_sameWorld : forall s s', sameWorld s s' -> P s -> P s'.
Hypothesis P_turn : forall s d, P s -> P (set_heroDirection d s).
Hypothesis P_collect : forall s, P s -> P (collectGem level s).2.
Hypothesis P_attack : forall s, P s -> P (attackEnemy s).

Lemma moveHero_invariant fuel steps s :
  P s -> P (outcome_state (moveHero level fuel steps s)).
Proof.
  intros Hs. unfold moveHero.
  destruct (isValidPosition level s _) eqn:Hvalid; cbn; [|done].
  pose proof (checkAdjacentEnemies_sameWorld fuel
                (set_heroPosition
                   (getPositionInDirection (heroPosition s) (heroDirection s) steps) s))
    as Hworld.
  apply P_sameWorld in Hworld; [|by apply P_move].
  by destruct (checkAdjacentEnemies fuel _).
Qed.

Lemma executeCommand_invariant fuel command s :
  P s -> P (outcome_state (executeCommand level fuel command s)).
Proof.
  intros Hs. unfold executeCommand.
  case_decide.
  { pose proof (moveHero_invariant fuel 1 s Hs).
    by destruct (moveHero level fuel 1 s). }
  case_decide.
  { pose proof (moveHero_invariant fuel (-1) s Hs).
    by destruct (moveHero level fuel (-1) s). }
  repeat case_decide; cbn; [by apply P_turn | by apply P_turn
                            | by apply P_collect | by apply P_attack | done].
Qed.

Lemma checkWinCondition_sameWorld s : sameWorld s (checkWinCondition level s).
Proof. unfold checkWinCondition. by destruct (forallb _ _). Qed.

Lemma runCommands_invariant fuel commands s :
  P s -> P (outcome_state (runCommands level fuel commands s)).
Proof.
  revert s; induction commands as [|c rest IH]; intros s Hs; cbn.
  - destruct (negb (heroDead s)); [|done].
    eapply P_sameWorld; [apply checkWinCondition_sameWorld | done].
  - destruct (_ || _); [done|].
    pose proof (executeCommand_invariant fuel c s Hs) as Hc.
    destruct (executeCommand level fuel c s); cbn; [by apply IH | done].
Qed.

End RunInvariant.

Lemma attackEnemy_frame s :
  heroPosition (attackEnemy s) = heroPosition s
  /\ heroDirection (attackEnemy s) = heroDirection s
  /\ collectedIds (attackEnemy s) = collectedIds s.
Proof.
  unfold attackEnemy. destruct (getEnemyAhead s) as [[id data]|]; [|done].
  cbv zeta. by destruct (_ <=? 0).
Qed.

Lemma runCommands_collected level fuel commands s :
  collectedIds s ⊆ collectibleIds level ->
  let s' := outcome_state (runCommands level fuel commands s) in
  collectedIds s ⊆ collectedIds s' /\ collectedIds s' ⊆ collectibleIds level.
Proof.
  intros Hsub.
  apply (runCommands_invariant level
           (fun s' => collectedIds s ⊆ collectedIds s'
                      /\ collectedIds s' ⊆ collectibleIds level));
    [done | | done | | | done].
  - by intros s1 s2 (_ & _ & -> & _).
  - intros s1 [H1 H2]. pose proof (collectGem_size level s1) as (H3 & _ & H4).
    split; [by etrans | by apply H4].
  - intros s1 H1. by destruct (attackEnemy_frame s1) as (_ & _ & ->).
Qed.

Lemma runCommands_collected_grows level fuel commands s :
  collectedIds s ⊆ collectedIds (outcome_state (runCommands level fuel commands s)).
Proof.
  apply (runCommands_invariant level
           (fun s' => collectedIds s ⊆ collectedIds s'));
    [done | | done | | | done].
  - by intros s1 s2 (_ & _ & -> & _).
  - intros s1 H1. pose proof (collectGem_size level s1) as (H3 & _).
    by etrans.
  - intros s1 H1. by destruct (attackEnemy_frame s1) as (_ & _ & ->).
Qed.

(** C8.  One call of the collect resolver collects at most one item: the
    first collectible of the level, in definition order, that lies on the
    hero's cell and whose id is not yet collected has its id added (the
    set grows by exactly one) and true is returned; when there is none the
    call returns false and changes nothing, which is the case on a cell
    whose items are all collected.  So the collected set never shrinks,
    neither in a call nor along a run, and in a run never counts more ids
    than the level has collectibles. *)
Theorem collect_takes_first_uncollected (level : Level) (s : State) :
  (forall before c after,
     collectibles level = before ++ c :: after ->
     uncollectedHere s c ->
     Forall (fun c' => ~ uncollectedHere s c') before ->
     collectGem level s
     = (true, set_collectedIds ({[collectible_id c]} ∪ collectedIds s) s)
     /\ size (collectedIds (collectGem level s).2) = S (size (collectedIds s)))
  /\ (Forall (fun c => ~ uncollectedHere s c) (collectibles level) ->
      collectGem level s = (false, s))
  /\ collectedIds s ⊆ collectedIds (collectGem level s).2
  /\ (size (collectedIds (collectGem level s).2) <= S (size (collectedIds s)))%nat
  /\ (forall fuel commands,
        collectedIds s
        ⊆ collectedIds (outcome_state (runCommands level fuel commands s)))
  /\ (forall fuel commands,
        (size (collectedIds (outcome_state (executeCommands level fuel commands)))
         <= length (collectibles level))%nat).
Proof.
  pose proof (collectGem_size level s) as (Hgrow & Hsize & _).
  split; [|split; [|split; [|split; [|split]]]].
  - intros before c after Heq Hc Hbefore.
    pose proof (collectGem_found level s before c after Heq Hc Hbefore) as Hfound.
    split; [done|]. by rewrite Hsize, Hfound.
  - apply collectGem_none.
  - done.
  - rewrite Hsize. destruct (collectGem level s).1; lia.
  - intros fuel commands. apply runCommands_collected_grows.
  - intros fuel commands.
    destruct (runCommands_collected level fuel commands (resetGame level))
      as [_ Hsub]; [set_solver|].
    apply subseteq_size in Hsub.
    pose proof (size_collectibleIds level). unfold executeCommands. lia.
Qed.

Lemma collect_witness :
  let s := resetGame twoGemsLevel in
  collectGem twoGemsLevel s = (true, set_collectedIds ({["gem1"]} ∪ ∅) s)
  /\ collectGem twoGemsLevel (set_collectedIds {["gem1"; "gem2"]} s)
     = (false, set_collectedIds {["gem1"; "gem2"]} s).
Proof.
  intros s; split.
  - destruct (collect_takes_first_uncollected twoGemsLevel s) as (Hfound & _).
    apply (Hfound [] (mkCollectible "gem1" gem (mkPos 0 1))
             [mkCollectible "gem2" gem (mkPos 0 1)]).
    + reflexivity.
    + split; [reflexivity | apply not_elem_of_empty].
    + constructor.
  - destruct (collect_takes_first_uncollected twoGemsLevel
                (set_collectedIds {["gem1"; "gem2"]} s)) as (_ & Hnone & _).
    apply Hnone.
    repeat constructor; intros [_ Hnot]; apply Hnot; cbn;
      [apply elem_of_union_l | apply elem_of_union_r]; by apply elem_of_singleton.
Defined.

(** ** The hero's place (C6) *)

Lemma map_set_elem {V : Type} (k : string) (v : V) m k' v' :
  (k', v') ∈ map_set k v m -> (k', v') = (k, v) \/ (k', v') ∈ m.
Proof.
  induction m as [|[k0 v0] m IH]; cbn.
  - intros ->%list_elem_of_singleton. by left.
  - case_decide.
    + intros [->|Hin]%elem_of_cons; [by left | right; by apply elem_of_cons; right].
    + intros [->|Hin]%elem_of_cons; [right; apply list_elem_of_here|].
      destruct (IH Hin) as [?|?]; [by left | right; by apply elem_of_cons; right].
Qed.

Lemma drawEnemies_elem level id d :
  (id, d) ∈ drawEnemies level ->
  exists e, e ∈ enemies level /\ position d = enemy_position e
            /\ health d = enemy_health e.
Proof.
  unfold drawEnemies.
  assert (Hgen : forall acc,
    (id, d) ∈ fold_left createEnemy (enemies level) acc ->
    (id, d) ∈ acc
    \/ exists e, e ∈ enemies level /\ position d = enemy_position e
                 /\ health d = enemy_health e).
  { induction (enemies level) as [|e es IH]; intros acc; cbn; [by left|].
    intros Hin. destruct (IH _ Hin) as [Hacc|(e' & He' & Hpos)].
    - apply map_set_elem in Hacc as [[= -> ->]|Hacc]; [|by left].
      right. exists e. split; [apply list_elem_of_here | done].
    - right. exists e'. split; [by apply elem_of_cons; right | done]. }
  intros Hin. destruct (Hgen [] Hin) as [Hnil|?]; [|done].
  by apply elem_of_nil in Hnil.
Qed.

Lemma startPlacedWell_reset level :
  startPlacedWell level -> heroPlacedWell level (resetGame level).
Proof.
  intros (Hx & Hy & Hwall & Henemy). repeat split; try done; try apply Hx; try apply Hy.
  intros (id & d & Hin & Hpos & Hlive). cbn in Hin, Hpos.
  apply drawEnemies_elem in Hin as (e & He & Hpe & Hhe).
  apply (Henemy e He); [lia | congruence].
Qed.

Lemma updateFirst_live a h m id d :
  (id, d) ∈ updateFirst (liveAt a) (withHealth h) m ->
  0 < health d ->
  exists d0, (id, d0) ∈ m /\ position d0 = position d /\ 0 < health d0.
Proof.
  induction m as [|e m IH]; cbn; [by intros ?%elem_of_nil|].
  destruct (liveAt a e) eqn:Hlive.
  - intros [[= -> ->]|Hin]%elem_of_cons Hd.
    + exists e.2. apply liveAt_true in Hlive as [_ Hh].
      split; [destruct e; apply list_elem_of_here | done].
    + exists d. split; [by apply elem_of_cons; right | done].
  - intros [<-|Hin]%elem_of_cons Hd.
    + exists d. split; [apply list_elem_of_here | done].
    + destruct (IH Hin Hd) as (d0 & Hd0 & Hrest).
      exists d0. split; [by apply elem_of_cons; right | done].
Qed.

Lemma attackEnemy_live s pos :
  liveEnemyAt (attackEnemy s) pos -> liveEnemyAt s pos.
Proof.
  unfold attackEnemy. destruct (getEnemyAhead s) as [[id0 data]|]; [|done].
  cbv zeta. intros (id & d & Hin & Hpos & Hh).
  assert (Hin' : (id, d) ∈ updateFirst
            (liveAt (getPositionInDirection (heroPosition s) (heroDirection s) 1))
            (withHealth (health data - heroAttackDamage)) (enemyMap s)).
  { by destruct (_ <=? 0). }
  destruct (updateFirst_live _ _ _ _ _ Hin' Hh) as (d0 & Hd0 & Hp0 & Hh0).
  exists id, d0. split; [done|]. split; [congruence | done].
Qed.

Lemma heroPlacedWell_blocked level s :
  heroPlacedWell level s <-> ~ blocked level s (heroPosition s).
Proof.
  unfold heroPlacedWell, blocked, outsideGrid. split.
  - intros (Hx & Hy & Hw & He) [?|[?|?]]; [lia | done | done].
  - intros Hb.
    split; [lia|]. split; [lia|].
    split; intros ?; apply Hb; right; [by left | by right].
Qed.

(** C6.  When the level's start position lies inside the grid, on no wall
    and on no live enemy, the hero's position keeps these three properties
    through every run: they hold of the state in which the run of any
    command list ends, and of the state in which it is found when it is
    cut short at any point of an adjacency loop. *)
Theorem hero_position_invariant
    (level : Level) (fuel : nat) (commands : list string) :
  startPlacedWell level ->
  heroPlacedWell level (outcome_state (executeCommands level fuel commands)).
Proof.
  intros Hstart. unfold executeCommands.
  apply (runCommands_invariant level (heroPlacedWell level)).
  - intros s pos _ Hvalid. apply heroPlacedWell_blocked.
    by apply isValidPosition_true in Hvalid.
  - intros s s' (Hp & _ & _ & Hm & _) Hs.
    unfold heroPlacedWell, liveEnemyAt in *. by rewrite Hp, Hm.
  - by intros s d Hs.
  - intros s Hs. unfold collectGem. by destruct (List.find _ _).
  - intros s (Hx & Hy & Hw & He).
    destruct (attackEnemy_frame s) as (Hp & _).
    unfold heroPlacedWell. rewrite Hp. repeat split; try done; try lia.
    intros Hlive. by apply He, attackEnemy_live.
  - by apply startPlacedWell_reset.
Qed.

Lemma hero_position_witness :
  heroPlacedWell level_2_1
    (outcome_state (executeCommands level_2_1 9 solution_2_1)).
Proof.
  apply (hero_position_invariant level_2_1 9%nat solution_2_1).
  split; [cbn; lia|]. split; [cbn; lia|]. split.
  - intros (c & Hc & Hw). vm_compute in Hc. injection Hc as <-. discriminate.
  - intros e He _. apply list_elem_of_singleton in He as ->. discriminate.
Defined.

(** ** One pass of the adjacency check *)

Lemma performEnemyAttack_alive e s :
  0 < heroHealth s - damage e.2 ->
  performEnemyAttack e s
  = emit (EnemyAttack e.1) (set_heroHealth (heroHealth s - damage e.2) s).
Proof.
  intros Hpos. unfold performEnemyAttack; cbn.
  by destruct (Z.leb_spec (heroHealth s - damage e.2) 0); [lia|].
Qed.

Lemma performEnemyAttack_fatal e s :
  heroHealth s - damage e.2 <= 0 ->
  performEnemyAttack e s
  = handleHeroDeath
      (emit (EnemyAttack e.1) (set_heroHealth (heroHealth s - damage e.2) s)).
Proof.
  intros Hle. unfold performEnemyAttack; cbn.
  by destruct (Z.leb_spec (heroHealth s - damage e.2) 0); [|lia].
Qed.

Lemma attackPass_spent adj s : heroHealth s <= 0 -> attackPass adj s = s.
Proof.
  intros Hle. destruct adj as [|e adj]; cbn; [done|].
  by destruct (Z.leb_spec (heroHealth s) 0); [|lia].
Qed.

(** A pass either runs through all its attackers and leaves the hero
    alive, or is cut at the attacker whose hit spends the hero's health. *)
Lemma attackPass_cases adj s :
  0 < heroHealth s ->
  let s' := attackPass adj s in
  (0 < heroHealth s'
   /\ heroHealth s' = heroHealth s - totalDamage adj
   /\ heroDead s' = heroDead s
   /\ events s' = events s ++ passEvents adj)
  \/ (exists cut rest,
        adj = cut ++ rest /\ cut <> []
        /\ heroHealth s' <= 0
        /\ heroHealth s' = heroHealth s - totalDamage cut
        /\ heroDead s' = true
        /\ events s' = events s ++ passEvents cut ++ [Complete false deathMessage]).
Proof.
  unfold totalDamage, passEvents.
  revert s; induction adj as [|e adj IH]; intros s Halive; cbn.
  - left. split_and!; [done | lia | done | by rewrite app_nil_r].
  - destruct (Z.leb_spec (heroHealth s) 0) as [?|_]; [lia|].
    destruct (Z.leb_spec (heroHealth s - damage e.2) 0) as [Hfatal|Hok].
    + right. exists [e], adj.
      rewrite (performEnemyAttack_fatal e s Hfatal).
      rewrite attackPass_spent by done; cbn.
      split_and!; [done | done | done | lia | done | by rewrite <- app_assoc].
    + rewrite (performEnemyAttack_alive e s) by lia.
      set (s1 := emit (EnemyAttack e.1) (set_heroHealth (heroHealth s - damage e.2) s)).
      destruct (IH s1) as [(H1 & H2 & H3 & H4)|(cut & rest & -> & Hcut & H1 & H2 & H3 & H4)];
        [done | left | right].
      * split_and!; [done | rewrite H2; cbn; lia | by rewrite H3 |].
        rewrite H4; cbn. by rewrite <- app_assoc.
      * exists (e :: cut), rest.
        split_and!; [done | done | done | rewrite H2; cbn; lia | done |].
        rewrite H4; cbn. by rewrite <- !app_assoc.
Qed.

Lemma totalDamage_positive adj :
  adj <> [] -> Forall (fun e => 1 <= damage e.2) adj -> 1 <= totalDamage adj.
Proof.
  intros Hne Hall. destruct adj as [|e adj]; [done|].
  apply Forall_cons in Hall as [He Hall]. unfold totalDamage; cbn.
  assert (0 <= foldr (fun e acc => damage e.2 + acc) 0 adj); [|lia].
  clear -Hall. induction Hall as [|x l Hx _ IH]; cbn; [done | lia].
Qed.

Lemma totalDamage_zero adj :
  Forall (fun e => damage e.2 = 0) adj -> totalDamage adj = 0.
Proof.
  unfold totalDamage. induction 1 as [|x l Hx _ IH]; cbn; [done | lia].
Qed.

Lemma Forall_app_l {A : Type} (Q : A -> Prop) (l1 l2 : list A) :
  Forall Q (l1 ++ l2) -> Forall Q l1.
Proof. by intros [? _]%Forall_app. Qed.

(** ** The passes of the adjacency loop *)

Lemma heroActive_test s :
  heroActive s <-> (0 <? heroHealth s) && negb (heroDead s) = true.
Proof.
  unfold heroActive. rewrite andb_true_iff, Z.ltb_lt, negb_true_iff. tauto.
Qed.

Lemma checkAdjacentEnemies_idle fuel s :
  ~ heroActive s \/ getAdjacentEnemies s = [] ->
  checkAdjacentEnemies fuel s = Done tt s.
Proof.
  intros Hidle. rewrite checkAdjacentEnemies_unfold.
  destruct ((0 <? heroHealth s) && negb (heroDead s)) eqn:Htest; [|done].
  destruct Hidle as [Hn| ->]; [|done]. by apply heroActive_test in Htest.
Qed.

(** The loop makes full passes over the same attackers until a pass is cut
    by the hero's death; out of fuel, it has made one pass more than its
    fuel and the hero can still act. *)
Lemma checkAdjacentEnemies_passes fuel s :
  let adj := getAdjacentEnemies s in
  heroActive s -> adj <> [] ->
  match checkAdjacentEnemies fuel s with
  | Done _ s' =>
      exists (n : nat) cut rest,
        (n <= fuel)%nat /\ adj = cut ++ rest /\ cut <> []
        /\ heroHealth s' <= 0
        /\ heroHealth s' = heroHealth s - Z.of_nat n * totalDamage adj - totalDamage cut
        /\ heroDead s' = true
        /\ events s' = events s ++ concat (replicate n (passEvents adj))
                         ++ passEvents cut ++ [Complete false deathMessage]
  | OutOfFuel s' =>
      heroActive s'
      /\ heroHealth s' = heroHealth s - Z.of_nat (S fuel) * totalDamage adj
      /\ events s' = events s ++ concat (replicate (S fuel) (passEvents adj))
  end.
Proof.
  revert s; induction fuel as [|fuel IH]; intros s adj Hactive Hne;
    rewrite checkAdjacentEnemies_unfold;
    pose proof Hactive as Htest; apply heroActive_test in Htest; rewrite Htest;
    fold adj; destruct adj as [|e adj'] eqn:Hadj; try done;
    cbv zeta; destruct Hactive as [Hdead Hhealth];
    destruct (attackPass_cases (e :: adj') s Hhealth)
      as [(H1 & H2 & H3 & H4)|(cut & rest & Hsplit & Hcut & H1 & H2 & H3 & H4)];
    destruct (Z.leb_spec (heroHealth (attackPass (e :: adj') s)) 0) as [Hle|Hgt];
    try lia.
  - split_and!; [by split; [congruence|] | lia |].
    rewrite H4; cbn. by rewrite app_nil_r.
  - exists 0%nat, cut, rest. split_and!; try done; lia.
  - assert (Hadj' : getAdjacentEnemies (attackPass (e :: adj') s) = e :: adj').
    { rewrite <- Hadj. apply getAdjacentEnemies_sameWorld, attackPass_sameWorld. }
    specialize (IH (attackPass (e :: adj') s)). cbv zeta in IH. rewrite Hadj' in IH.
    specialize (IH ltac:(split; [congruence | done]) ltac:(done)).
    destruct (checkAdjacentEnemies fuel (attackPass (e :: adj') s)) as [[] s'|s'].
    + destruct IH as (n & cut & rest & Hn & Hsplit & Hcut & I1 & I2 & I3 & I4).
      exists (S n), cut, rest. split_and!; try done; [lia | lia |].
      rewrite I4, H4; cbn. by rewrite <- !app_assoc.
    + destruct IH as (I1 & I2 & I3). split_and!; [done | lia |].
      rewrite I3, H4. change (replicate (S (S fuel)) ?x) with (x :: replicate (S fuel) x).
      cbn [concat]. by rewrite <- !app_assoc.
  - exists 0%nat, cut, rest. split_and!; try done; lia.
Qed.

(** ** Termination of the adjacency loop (C10) *)

Lemma attackPass_decreases adj s :
  0 < heroHealth s -> adj <> [] ->
  Forall (fun e => 1 <= damage e.2) adj ->
  heroHealth (attackPass adj s) < heroHealth s.
Proof.
  intros Halive Hne Hall.
  destruct (attackPass_cases adj s Halive)
    as [(_ & H2 & _)|(cut & rest & _ & _ & H1 & _)]; [|lia].
  pose proof (totalDamage_positive adj Hne Hall). lia.
Qed.

Lemma checkAdjacentEnemies_terminates s :
  Forall (fun e => 1 <= damage e.2) (getAdjacentEnemies s) ->
  exists s', checkAdjacentEnemies (Z.to_nat (heroHealth s)) s = Done tt s'.
Proof.
  intros Hall.
  destruct (decide (heroActive s)) as [Hactive|Hidle];
    [|exists s; apply checkAdjacentEnemies_idle; by left].
  destruct (getAdjacentEnemies s) as [|e adj] eqn:Hadj;
    [exists s; apply checkAdjacentEnemies_idle; by right|].
  pose proof (checkAdjacentEnemies_passes (Z.to_nat (heroHealth s)) s Hactive) as Hloop.
  cbv zeta in Hloop. rewrite Hadj in Hloop. specialize (Hloop ltac:(done)).
  destruct (checkAdjacentEnemies _ s) as [[] s'|s']; [by exists s'|].
  destruct Hloop as ([_ Hpos] & Hhealth & _).
  pose proof (totalDamage_positive (e :: adj) ltac:(done) Hall).
  destruct Hactive as [_ Hs]. nia.
Qed.

Lemma checkAdjacentEnemies_diverges fuel s :
  heroActive s -> getAdjacentEnemies s <> [] ->
  Forall (fun e => damage e.2 = 0) (getAdjacentEnemies s) ->
  exists s', checkAdjacentEnemies fuel s = OutOfFuel s'
             /\ sameWorld s s' /\ heroHealth s' = heroHealth s.
Proof.
  intros Hactive Hne Hall.
  pose proof (checkAdjacentEnemies_passes fuel s Hactive Hne) as Hloop.
  pose proof (checkAdjacentEnemies_sameWorld fuel s) as Hworld.
  destruct (checkAdjacentEnemies fuel s) as [[] s'|s'].
  - destruct Hloop as (n & cut & rest & _ & Hsplit & _ & Hle & Hhealth & _).
    rewrite (totalDamage_zero _ Hall) in Hhealth.
    rewrite Hsplit in Hall. apply Forall_app_l in Hall.
    rewrite (totalDamage_zero cut Hall) in Hhealth.
    destruct Hactive. lia.
  - exists s'. destruct Hloop as (_ & Hhealth & _).
    rewrite (totalDamage_zero _ Hall) in Hhealth. split_and!; [done | done | lia].
Qed.

(** C10 as amended.  When every live adjacent enemy has damage of at least
    1 the adjacency loop ends, within as many extra passes as the hero has
    health, because a pass made by a hero with health left strictly lowers
    that health.  When the hero can act, at least one live enemy is
    adjacent and every live adjacent enemy has damage 0, the loop never
    ends: whatever the fuel, it is still running, with the world and the
    hero's health as they were. *)
Theorem adjacency_loop_termination (s : State) :
  let adj := getAdjacentEnemies s in
  (Forall (fun e => 1 <= damage e.2) adj ->
     (exists fuel s', checkAdjacentEnemies fuel s = Done tt s')
     /\ (0 < heroHealth s -> adj <> [] ->
         heroHealth (attackPass adj s) < heroHealth s))
  /\ (heroActive s -> adj <> [] ->
      Forall (fun e => damage e.2 = 0) adj ->
      forall fuel,
        exists s', checkAdjacentEnemies fuel s = OutOfFuel s'
                   /\ sameWorld s s' /\ heroHealth s' = heroHealth s).
Proof.
  intros adj; split.
  - intros Hall; split.
    + exists (Z.to_nat (heroHealth s)). by apply checkAdjacentEnemies_terminates.
    + intros Halive Hne. by apply attackPass_decreases.
  - intros Hactive Hne Hall fuel. by apply checkAdjacentEnemies_diverges.
Qed.

Lemma adjacency_loop_witness :
  (exists fuel s', checkAdjacentEnemies fuel (steppedIn twoGuardsLevel) = Done tt s')
  /\ forall fuel,
       exists s', checkAdjacentEnemies fuel (steppedIn idleLevel) = OutOfFuel s'
                  /\ sameWorld (steppedIn idleLevel) s'
                  /\ heroHealth s' = heroHealth (steppedIn idleLevel).
Proof.
  split.
  - apply (adjacency_loop_termination (steppedIn twoGuardsLevel)).
    repeat constructor; cbn; lia.
  - apply (adjacency_loop_termination (steppedIn idleLevel)).
    + split; [reflexivity | cbn; lia].
    + discriminate.
    + repeat constructor.
Defined.

(** C10 as stated fails: with a live adjacent enemy of damage 0 next to one
    of damage 30 the loop ends, after four passes, with the hero dead. *)
Lemma adjacency_loop_counterexample :
  let s := steppedIn idleAndBiterLevel in
  ("idle", mkEnemyData 20 20 0 (mkPos 1 0)) ∈ getAdjacentEnemies s
  /\ heroActive s
  /\ exists s', checkAdjacentEnemies 3 s = Done tt s'
                /\ heroHealth s' = -20 /\ heroDead s' = true.
Proof.
  intros s. split; [apply list_elem_of_here|].
  split; [split; [reflexivity | cbn; lia]|].
  eexists. split; [vm_compute; reflexivity|]. by split.
Qed.

(** ** The order of the attackers (C7) *)

Lemma liveAt_bearing s dir e :
  liveAt (getPositionInDirection (heroPosition s) dir 1) e
  = liveAdjacent s e && standsOn s dir e.
Proof.
  unfold liveAt, liveAdjacent, standsOn, bearing, getPositionInDirection.
  destruct e as [id [h mh dmg [ex ey]]], (heroPosition s) as [hx hy]; cbn.
  destruct (Z.ltb_spec 0 h); cbn; [|by rewrite andb_false_r].
  rewrite andb_true_r.
  destruct dir; cbn;
    repeat match goal with
           | |- context [?a =? ?b] => destruct (Z.eqb_spec a b); cbn
           end;
    try reflexivity; try lia;
    repeat case_bool_decide; try reflexivity; try congruence; try lia.
Qed.

Lemma filter_filter_andb {A : Type} (f g : A -> bool) (l : list A) :
  List.filter f (List.filter g l) = List.filter (fun x => g x && f x) l.
Proof.
  induction l as [|x l IH]; cbn; [done|].
  destruct (g x); cbn; [destruct (f x)|]; by rewrite IH.
Qed.

Lemma getAdjacentEnemies_by_direction s :
  getAdjacentEnemies s
  = flat_map (fun dir => List.filter (standsOn s dir) (adjacentInStoredOrder s))
      allDirections.
Proof.
  unfold getAdjacentEnemies, adjacentInStoredOrder, allDirections.
  cbn [flat_map]. rewrite !filter_filter_andb.
  by rewrite (filter_ext _ _ (liveAt_bearing s north)),
    (filter_ext _ _ (liveAt_bearing s east)),
    (filter_ext _ _ (liveAt_bearing s south)),
    (filter_ext _ _ (liveAt_bearing s west)).
Qed.

Lemma liveAdjacent_bearing s e :
  liveAdjacent s e = true ->
  exists dir, bearing (heroPosition s) (position e.2) = Some dir.
Proof.
  unfold liveAdjacent, bearing.
  destruct e as [id [h mh dmg [ex ey]]], (heroPosition s) as [hx hy]; cbn.
  rewrite andb_true_iff, Z.eqb_eq. intros [_ Hdist].
  repeat match goal with
         | |- context [?a =? ?b] => destruct (Z.eqb_spec a b); cbn
         end; eauto; lia.
Qed.

Lemma by_direction_permutation s (l : list (string * EnemyData)) :
  Forall (fun e => liveAdjacent s e = true) l ->
  flat_map (fun dir => List.filter (standsOn s dir) l) allDirections ≡ₚ l.
Proof.
  unfold allDirections; cbn. rewrite app_nil_r.
  induction 1 as [|e l He _ IH]; cbn; [done|].
  destruct (liveAdjacent_bearing s e He) as [dir Hdir].
  assert (Hside : forall d, standsOn s d e = bool_decide (dir = d)).
  { intros d. unfold standsOn. rewrite Hdir. apply bool_decide_ext.
    split; congruence. }
  rewrite !Hside. destruct dir; repeat (case_bool_decide; try done); cbn;
    rewrite <- ?Permutation_middle; apply perm_skip, IH.
Qed.

Lemma getAdjacentEnemies_permutation s :
  getAdjacentEnemies s ≡ₚ adjacentInStoredOrder s.
Proof.
  rewrite getAdjacentEnemies_by_direction. apply by_direction_permutation.
  unfold adjacentInStoredOrder. apply Forall_forall. intros e He.
  apply list_elem_of_In, filter_In in He. tauto.
Qed.

(** C7 as amended.  In the adjacency check the attackers of a pass are the
    live, orthogonally adjacent enemies, each taken once; they come in the
    order of the side on which they stand - north, east, south, west - and
    in stored order only among those on the same cell.  Every pass goes
    through these attackers in that order, one attack each, and passes are
    repeated until a pass is cut at the attack that spends the hero's
    health, where the hero is marked dead and the defeat is reported; with
    no live adjacent enemy, or a hero who cannot act, nothing happens. *)
Theorem adjacency_check_attack_order (fuel : nat) (s : State) :
  let adj := getAdjacentEnemies s in
  adj = flat_map
          (fun dir => List.filter (standsOn s dir) (adjacentInStoredOrder s))
          allDirections
  /\ adj ≡ₚ adjacentInStoredOrder s
  /\ (heroActive s -> adj <> [] ->
      match checkAdjacentEnemies fuel s with
      | Done _ s' =>
          exists (n : nat) cut rest,
            (n <= fuel)%nat /\ adj = cut ++ rest /\ cut <> []
            /\ heroHealth s' <= 0
            /\ heroHealth s'
               = heroHealth s - Z.of_nat n * totalDamage adj - totalDamage cut
            /\ heroDead s' = true
            /\ events s'
               = events s ++ concat (replicate n (passEvents adj))
                   ++ passEvents cut ++ [Complete false deathMessage]
      | OutOfFuel s' =>
          heroActive s'
          /\ heroHealth s' = heroHealth s - Z.of_nat (S fuel) * totalDamage adj
          /\ events s' = events s ++ concat (replicate (S fuel) (passEvents adj))
      end)
  /\ (~ heroActive s \/ adj = [] -> checkAdjacentEnemies fuel s = Done tt s).
Proof.
  intros adj. split_and!.
  - apply getAdjacentEnemies_by_direction.
  - apply getAdjacentEnemies_permutation.
  - apply checkAdjacentEnemies_passes.
  - apply checkAdjacentEnemies_idle.
Qed.

Lemma adjacency_check_witness :
  let s := steppedIn twoGuardsLevel in
  (exists (n : nat) cut rest,
     (n <= 0)%nat /\ getAdjacentEnemies s = cut ++ rest /\ cut <> []
     /\ heroHealth (outcome_state (checkAdjacentEnemies 0 s)) <= 0
     /\ events (outcome_state (checkAdjacentEnemies 0 s))
        = events s ++ concat (replicate n (passEvents (getAdjacentEnemies s)))
            ++ passEvents cut ++ [Complete false deathMessage])
  /\ checkAdjacentEnemies 0 (resetGame twoGuardsLevel)
     = Done tt (resetGame twoGuardsLevel).
Proof.
  intros s. split.
  - destruct (adjacency_check_attack_order 0 s) as (_ & _ & Hloop & _).
    specialize (Hloop ltac:(split; [reflexivity | cbn; lia]) ltac:(discriminate)).
    change (checkAdjacentEnemies 0 s)
      with (Done tt (attackPass (getAdjacentEnemies s) s)) in *.
    destruct Hloop as (n & cut & rest & H1 & H2 & H3 & H4 & _ & _ & H5).
    exists n, cut, rest. by split_and!.
  - apply (adjacency_check_attack_order 0 (resetGame twoGuardsLevel)).
    by right.
Defined.

(** C7 as stated fails: the guard stored second stands north of the hero
    and attacks first. *)
Lemma attack_order_counterexample :
  let s := steppedIn twoGuardsLevel in
  map fst (adjacentInStoredOrder s) = ["south_guard"; "north_guard"]
  /\ map fst (getAdjacentEnemies s) = ["north_guard"; "south_guard"]
  /\ forall fuel,
       events (outcome_state
                 (executeCommands twoGuardsLevel fuel ["move_forward"]))
       = [EnemyAttack "north_guard"; EnemyAttack "south_guard";
          Complete false deathMessage].
Proof.
  intros s. split; [reflexivity|]. split; [reflexivity|].
  intros fuel. by destruct fuel.
Qed.

(** * Further properties of the scene *)

(** ** Turning and stepping *)

Lemma turnHero_active (b : bool) s : heroActive s -> heroActive (turnHero b s).
Proof. by intros [? ?]. Qed.

Lemma runCommands_turn level fuel (b : bool) rest s :
  heroActive s ->
  runCommands level fuel
    (((if b then "turn_left" else "turn_right") : string) :: rest) s
  = runCommands level fuel rest (turnHero b s).
Proof.
  intros [Hdead Hhealth]. cbn. rewrite Hdead.
  destruct (Z.leb_spec (heroHealth s) 0); [lia|]. by destruct b.
Qed.

(** X1.  The two turn commands always run, change nothing but the facing
    direction and undo each other; for a hero who can act, four turns to
    the same side leave the run where it was. *)
Theorem turn_commands_compose
    (level : Level) (fuel : nat) (toLeft : bool) (rest : list string)
    (s : State) :
  let turn : string := if toLeft then "turn_left" else "turn_right" in
  let back : string := if toLeft then "turn_right" else "turn_left" in
  executeCommand level fuel turn s = Done tt (turnHero toLeft s)
  /\ set_heroDirection (heroDirection s) (turnHero toLeft s) = s
  /\ executeCommand level fuel back (turnHero toLeft s) = Done tt s
  /\ (heroActive s ->
      runCommands level fuel (turn :: turn :: turn :: turn :: rest) s
      = runCommands level fuel rest s).
Proof.
  intros turn back. split_and!.
  - subst turn. by destruct toLeft.
  - by destruct s.
  - subst back. destruct toLeft; unfold executeCommand; cbn; f_equal;
      destruct s as [p d c h mh dead m de ev]; by destruct d.
  - intros Hactive. subst turn.
    rewrite !runCommands_turn by (by repeat apply turnHero_active).
    f_equal. destruct s as [p d c h mh dead m de ev]; by destruct d, toLeft.
Qed.

Lemma turn_commands_witness :
  runCommands level_2_1 0
    ["turn_left"; "turn_left"; "turn_left"; "turn_left"; "attack"]
    (resetGame level_2_1)
  = runCommands level_2_1 0 ["attack"] (resetGame level_2_1).
Proof.
  apply (turn_commands_compose level_2_1 0%nat true ["attack"]
           (resetGame level_2_1)).
  split; [reflexivity | cbn; lia].
Defined.

Lemma step_back_and_forth p d :
  getPositionInDirection (getPositionInDirection p d 1) d (-1) = p.
Proof.
  unfold getPositionInDirection. destruct p as [x y], d; cbn; f_equal; lia.
Qed.

Lemma runCommands_step level fuel command rest s s1 :
  heroActive s ->
  executeCommand level fuel command s = Done tt s1 ->
  runCommands level fuel (command :: rest) s = runCommands level fuel rest s1.
Proof.
  intros [Hdead Hhealth] Hexec. cbn. rewrite Hdead, Hexec.
  by destruct (Z.leb_spec (heroHealth s) 0); [lia|].
Qed.

Lemma executeCommand_move level fuel (forward : bool) s :
  executeCommand level fuel
    (if forward then "move_forward" else "move_backward") s
  = bind (moveHero level fuel (if forward then 1 else -1) s)
         (fun _ s' => Done tt s').
Proof. by destruct forward. Qed.

Lemma moveHero_free level fuel steps s :
  let target := getPositionInDirection (heroPosition s) (heroDirection s) steps in
  ~ blocked level s target ->
  getAdjacentEnemies (set_heroPosition target s) = [] ->
  moveHero level fuel steps s = Done true (set_heroPosition target s).
Proof.
  intros target Hfree Hquiet.
  destruct (moveHero_applied level fuel steps s Hfree) as [-> _].
  fold target. by rewrite checkAdjacentEnemies_idle by (by right).
Qed.

(** X2.  A step forward followed by a step backward brings the run back to
    the state it was in, when the cell ahead is free and no live enemy
    stands next to that cell or next to the hero's own cell. *)
Theorem forward_then_backward
    (level : Level) (fuel : nat) (rest : list string) (s : State) :
  heroPlacedWell level s ->
  heroActive s ->
  ~ blocked level s (aheadPos s) ->
  getAdjacentEnemies (set_heroPosition (aheadPos s) s) = [] ->
  getAdjacentEnemies s = [] ->
  executeCommand level fuel "move_forward" s
  = Done tt (set_heroPosition (aheadPos s) s)
  /\ executeCommand level fuel "move_backward" (set_heroPosition (aheadPos s) s)
     = Done tt s
  /\ runCommands level fuel ("move_forward" :: "move_backward" :: rest) s
     = runCommands level fuel rest s.
Proof.
  intros Hplaced Hactive Hfree Hquiet1 Hquiet0.
  assert (Hfwd : executeCommand level fuel "move_forward" s
                 = Done tt (set_heroPosition (aheadPos s) s)).
  { rewrite (executeCommand_move level fuel true).
    by rewrite (moveHero_free level fuel 1 s Hfree Hquiet1). }
  assert (Hback : set_heroPosition
                    (getPositionInDirection
                       (heroPosition (set_heroPosition (aheadPos s) s))
                       (heroDirection (set_heroPosition (aheadPos s) s)) (-1))
                    (set_heroPosition (aheadPos s) s) = s).
  { change (heroPosition (set_heroPosition (aheadPos s) s)) with (aheadPos s).
    change (heroDirection (set_heroPosition (aheadPos s) s)) with (heroDirection s).
    unfold aheadPos. rewrite step_back_and_forth. by destruct s. }
  assert (Hbwd : executeCommand level fuel "move_backward"
                   (set_heroPosition (aheadPos s) s) = Done tt s).
  { rewrite (executeCommand_move level fuel false).
    rewrite (moveHero_free level fuel (-1) (set_heroPosition (aheadPos s) s)).
    - cbn [bind]. by rewrite Hback.
    - change (heroPosition (set_heroPosition (aheadPos s) s)) with (aheadPos s).
      change (heroDirection (set_heroPosition (aheadPos s) s)) with (heroDirection s).
      unfold aheadPos. rewrite step_back_and_forth.
      by apply heroPlacedWell_blocked in Hplaced.
    - by rewrite Hback. }
  split; [done|]. split; [done|].
  rewrite (runCommands_step _ _ _ _ _ _ Hactive Hfwd).
  apply runCommands_step; [|done]. by destruct Hactive.
Qed.

Lemma forward_then_backward_witness :
  runCommands shortLimitLevel 0 ["move_forward"; "move_backward"; "turn_left"]
    (resetGame shortLimitLevel)
  = runCommands shortLimitLevel 0 ["turn_left"] (resetGame shortLimitLevel).
Proof.
  apply (forward_then_backward shortLimitLevel 0%nat ["turn_left"]
           (resetGame shortLimitLevel)).
  - apply heroPlacedWell_blocked, isValidPosition_true. reflexivity.
  - split; [reflexivity | cbn; lia].
  - apply isValidPosition_true. reflexivity.
  - reflexivity.
  - reflexivity.
Defined.

(** ** The enemy ahead *)

Lemma getEnemyAhead_Some s e :
  getEnemyAhead s = Some e ->
  exists before after,
    enemyMap s = before ++ e :: after
    /\ position e.2 = aheadPos s /\ 0 < health e.2
    /\ Forall (fun e' => liveAt (aheadPos s) e' = false) before.
Proof.
  unfold getEnemyAhead. fold (aheadPos s). intros Hfind.
  apply find_first in Hfind as (before & after & Heq & Hlive & Hbefore).
  exists before, after. apply liveAt_true in Hlive as [? ?]. by split_and!.
Qed.

Lemma getEnemyAhead_None s :
  getEnemyAhead s = None <-> ~ liveEnemyAt s (aheadPos s).
Proof.
  unfold getEnemyAhead. fold (aheadPos s). rewrite find_absent, Forall_forall.
  split.
  - intros Hall (id & d & Hin & Hpos & Hh).
    specialize (Hall (id, d) Hin).
    assert (liveAt (aheadPos s) (id, d) = true) by by apply liveAt_true.
    congruence.
  - intros Hnone [id d] Hin.
    destruct (liveAt (aheadPos s) (id, d)) eqn:Hlive; [|done].
    exfalso. apply Hnone. exists id, d. by apply liveAt_true in Hlive as [? ?].
Qed.

(** X3.  The enemy that an attack would hit is the first entry of the map,
    in stored order, that is alive on the cell ahead; there is none exactly
    when no live enemy stands on that cell, and when there is one a step
    forward is rejected and leaves the state as it is. *)
Theorem enemy_ahead_blocks_the_way (level : Level) (fuel : nat) (s : State) :
  (getEnemyAhead s = None <-> ~ liveEnemyAt s (aheadPos s))
  /\ forall e,
       getEnemyAhead s = Some e ->
       (exists before after,
          enemyMap s = before ++ e :: after
          /\ position e.2 = aheadPos s /\ 0 < health e.2
          /\ Forall (fun e' => ~ (position e'.2 = aheadPos s /\ 0 < health e'.2))
               before)
       /\ moveHero level fuel 1 s = Done false s.
Proof.
  split; [apply getEnemyAhead_None|].
  intros e He. destruct (getEnemyAhead_Some s e He)
    as (before & after & Heq & Hpos & Hlive & Hbefore). split.
  - exists before, after. split_and!; try done.
    eapply Forall_impl; [exact Hbefore|]. intros e' Hdead Hlive'.
    apply liveAt_true in Hlive'. congruence.
  - apply moveHero_rejected. right; right. destruct e as [id d].
    exists id, d. split; [|done]. rewrite Heq. apply elem_of_app; right.
    apply list_elem_of_here.
Qed.

Lemma enemy_ahead_witness :
  moveHero bossLevel 0 1 (resetGame bossLevel) = Done false (resetGame bossLevel).
Proof.
  apply (enemy_ahead_blocks_the_way bossLevel 0%nat (resetGame bossLevel))
    with (e := ("boss", mkEnemyData 300 300 50 (mkPos 1 1))).
  reflexivity.
Defined.

(** ** Attacks *)

Lemma updateFirst_split found f (m before after : list (string * EnemyData)) e :
  m = before ++ e :: after ->
  found e = true ->
  Forall (fun e' => found e' = false) before ->
  updateFirst found f m = before ++ (e.1, f e.2) :: after.
Proof.
  intros -> He Hbefore. induction Hbefore as [|x l Hx _ IH]; cbn.
  - by rewrite He.
  - by rewrite Hx, IH.
Qed.

Lemma attackEnemy_miss s :
  ~ liveEnemyAt s (aheadPos s) -> attackEnemy s = s.
Proof.
  intros Hnone%getEnemyAhead_None. unfold attackEnemy. by rewrite Hnone.
Qed.

(** X4.  An attack with no live enemy on the cell ahead - an empty cell, a
    wall, the edge of the grid or an enemy already defeated - changes
    nothing: no damage either way, the defeated set as it was, and the run
    goes on with the next command. *)
Theorem attack_miss_is_noop
    (level : Level) (fuel : nat) (rest : list string) (s : State) :
  ~ liveEnemyAt s (aheadPos s) ->
  attackEnemy s = s
  /\ executeCommand level fuel "attack" s = Done tt s
  /\ (heroActive s ->
      runCommands level fuel ("attack" :: rest) s = runCommands level fuel rest s).
Proof.
  intros Hnone. pose proof (attackEnemy_miss s Hnone) as Hmiss.
  assert (Hexec : executeCommand level fuel "attack" s = Done tt s).
  { unfold executeCommand; cbn. by rewrite Hmiss. }
  split; [done|]. split; [done|]. intros Hactive. by apply runCommands_noop.
Qed.

Lemma attack_miss_witness :
  attackEnemy (resetGame level_2_1) = resetGame level_2_1.
Proof.
  apply (attack_miss_is_noop level_2_1 0%nat [] (resetGame level_2_1)).
  intros (id & d & Hin & Hpos & _).
  apply list_elem_of_singleton in Hin. injection Hin as -> ->.
  vm_compute in Hpos. discriminate.
Defined.

(** What one attack does when the first live enemy on the cell ahead is
    the entry [(id, d)] of the map. *)
Lemma attackEnemy_hit s before id d after :
  enemyMap s = before ++ (id, d) :: after ->
  position d = aheadPos s -> 0 < health d ->
  Forall (fun e' => ~ (position e'.2 = aheadPos s /\ 0 < health e'.2)) before ->
  let h := health d - heroAttackDamage in
  let s1 := set_enemyMap (before ++ (id, withHealth h d) :: after) s in
  attackEnemy s
  = if h <=? 0 then set_defeatedEnemies ({[id]} ∪ defeatedEnemies s) s1
    else emit (CounterAttack id) (set_heroHealth (heroHealth s - damage d) s1).
Proof.
  intros Hmap Hpos Hlive Hbefore h s1.
  assert (Hdead : Forall (fun e' => liveAt (aheadPos s) e' = false) before).
  { eapply Forall_impl; [exact Hbefore|]. intros e' Hn.
    destruct (liveAt (aheadPos s) e') eqn:He; [|done].
    by apply liveAt_true in He. }
  assert (Hfound : liveAt (aheadPos s) (id, d) = true) by by apply liveAt_true.
  unfold attackEnemy.
  assert (getEnemyAhead s = Some (id, d)) as ->.
  { unfold getEnemyAhead. fold (aheadPos s). apply find_first.
    by exists before, after. }
  cbv zeta. fold (aheadPos s).
  by rewrite (updateFirst_split _ _ _ before after (id, d) Hmap Hfound Hdead).
Qed.

(** X5.  An attack takes 20 from the health of the first live enemy on the
    cell ahead and touches no other enemy.  When that brings the enemy to 0
    or below, its id joins the defeated set and the hero takes no damage;
    otherwise the enemy strikes back once and the hero loses the enemy's
    damage.  The hero neither moves nor turns. *)
Theorem attack_hits_first_enemy_ahead
    (s : State) (before after : list (string * EnemyData))
    (id : string) (d : EnemyData) :
  enemyMap s = before ++ (id, d) :: after ->
  position d = aheadPos s -> 0 < health d ->
  Forall (fun e' => ~ (position e'.2 = aheadPos s /\ 0 < health e'.2)) before ->
  let s' := attackEnemy s in
  enemyMap s' = before ++ (id, withHealth (health d - 20) d) :: after
  /\ heroPosition s' = heroPosition s /\ heroDirection s' = heroDirection s
  /\ heroDead s' = heroDead s /\ collectedIds s' = collectedIds s
  /\ (health d <= 20 ->
      defeatedEnemies s' = {[id]} ∪ defeatedEnemies s
      /\ heroHealth s' = heroHealth s /\ events s' = events s)
  /\ (20 < health d ->
      defeatedEnemies s' = defeatedEnemies s
      /\ heroHealth s' = heroHealth s - damage d
      /\ events s' = events s ++ [CounterAttack id]).
Proof.
  intros Hmap Hpos Hlive Hbefore s'. subst s'.
  rewrite (attackEnemy_hit s before id d after Hmap Hpos Hlive Hbefore).
  unfold heroAttackDamage.
  destruct (Z.leb_spec (health d - 20) 0); split_and!; try done; lia.
Qed.

Lemma attack_hits_witness :
  let s := resetGame bossLevel in
  enemyMap (attackEnemy s) = [("boss", mkEnemyData 280 300 50 (mkPos 1 1))]
  /\ heroHealth (attackEnemy s) = 50.
Proof.
  intros s.
  destruct (attack_hits_first_enemy_ahead s [] []
              "boss" (mkEnemyData 300 300 50 (mkPos 1 1)))
    as (Hmap & _ & _ & _ & _ & _ & Hcounter);
    [reflexivity | reflexivity | cbn; lia | constructor |].
  split; [exact Hmap|]. apply Hcounter. cbn; lia.
Defined.

Lemma withHealth_own d : withHealth (health d) d = d.
Proof. by destruct d. Qed.

(** As long as the enemy keeps health above 20 per attack still to come,
    every attack is answered by one counter-attack. *)
Lemma attackTimes_alive s before id d after (k : nat) :
  enemyMap s = before ++ (id, d) :: after ->
  position d = aheadPos s -> 0 < health d ->
  Forall (fun e' => ~ (position e'.2 = aheadPos s /\ 0 < health e'.2)) before ->
  Z.of_nat k * 20 < health d ->
  let sk := attackTimes k s in
  enemyMap sk = before ++ (id, withHealth (health d - Z.of_nat k * 20) d) :: after
  /\ aheadPos sk = aheadPos s
  /\ defeatedEnemies sk = defeatedEnemies s
  /\ heroHealth sk = heroHealth s - Z.of_nat k * damage d
  /\ events sk = events s ++ replicate k (CounterAttack id).
Proof.
  intros Hmap Hpos Hlive Hbefore. induction k as [|k IH]; intros Hk.
  - cbn. rewrite Z.sub_0_r, withHealth_own, app_nil_r.
    split_and!; try done; lia.
  - destruct IH as (Imap & Iahead & Idef & Ihealth & Iev); [lia|].
    cbv zeta. change (attackTimes (S k) s) with (attackEnemy (attackTimes k s)).
    rewrite (attackEnemy_hit (attackTimes k s) before id
               (withHealth (health d - Z.of_nat k * 20) d) after Imap);
      [| by rewrite Iahead | cbn; lia | by rewrite Iahead].
    unfold heroAttackDamage.
    destruct (Z.leb_spec (health (withHealth (health d - Z.of_nat k * 20) d) - 20) 0)
      as [Hle|_]; [cbn in Hle; lia|].
    split_and!.
    + cbn. do 3 f_equal. unfold withHealth; cbn. f_equal. lia.
    + done.
    + done.
    + cbn. rewrite Ihealth. lia.
    + cbn. rewrite Iev, <- app_assoc. f_equal.
      change (CounterAttack id :: replicate k (CounterAttack id))
        with (replicate (S k) (CounterAttack id)).
      by rewrite replicate_S_end.
Qed.

(** X6.  An enemy with health [h] standing first on the cell ahead is dead
    after exactly ceil(h/20) attacks in a row and not before: each earlier
    attack leaves it alive and costs the hero one counter-attack, the last
    one brings it to 0 or below, puts its id in the defeated set and costs
    the hero nothing. *)
Theorem enemy_dies_after_enough_attacks
    (s : State) (before after : list (string * EnemyData))
    (id : string) (d : EnemyData) :
  enemyMap s = before ++ (id, d) :: after ->
  position d = aheadPos s -> 0 < health d ->
  Forall (fun e' => ~ (position e'.2 = aheadPos s /\ 0 < health e'.2)) before ->
  let n := Z.to_nat ((health d + 19) / 20) in
  (forall k : nat, (k < n)%nat ->
     enemyMap (attackTimes k s)
     = before ++ (id, withHealth (health d - Z.of_nat k * 20) d) :: after
     /\ 0 < health d - Z.of_nat k * 20
     /\ defeatedEnemies (attackTimes k s) = defeatedEnemies s)
  /\ enemyMap (attackTimes n s)
     = before ++ (id, withHealth (health d - Z.of_nat n * 20) d) :: after
  /\ health d - Z.of_nat n * 20 <= 0
  /\ defeatedEnemies (attackTimes n s) = {[id]} ∪ defeatedEnemies s
  /\ heroHealth (attackTimes n s) = heroHealth s - (Z.of_nat n - 1) * damage d.
Proof.
  intros Hmap Hpos Hlive Hbefore n.
  assert (Hn : (Z.of_nat n - 1) * 20 < health d <= Z.of_nat n * 20).
  { subst n. pose proof (Z.div_mod (health d + 19) 20 ltac:(lia)).
    pose proof (Z.mod_pos_bound (health d + 19) 20 ltac:(lia)).
    rewrite Z2Nat.id by (apply Z.div_pos; lia). lia. }
  split.
  - intros k Hk.
    destruct (attackTimes_alive s before id d after k Hmap Hpos Hlive Hbefore)
      as (Kmap & _ & Kdef & _); [lia|]. split_and!; [done | lia | done].
  - destruct n as [|m]; [lia|].
    destruct (attackTimes_alive s before id d after m Hmap Hpos Hlive Hbefore)
      as (Imap & Iahead & Idef & Ihealth & Iev); [lia|].
    change (attackTimes (S m) s) with (attackEnemy (attackTimes m s)).
    rewrite (attackEnemy_hit (attackTimes m s) before id
               (withHealth (health d - Z.of_nat m * 20) d) after Imap);
      [| by rewrite Iahead | cbn; lia | by rewrite Iahead].
    unfold heroAttackDamage.
    destruct (Z.leb_spec (health (withHealth (health d - Z.of_nat m * 20) d) - 20) 0)
      as [_|Hgt]; [|cbn in Hgt; lia].
    split_and!.
    + cbn. do 3 f_equal. unfold withHealth; cbn. f_equal. lia.
    + lia.
    + cbn. by rewrite Idef.
    + cbn. rewrite Ihealth. lia.
Qed.

Lemma enemy_dies_witness :
  defeatedEnemies (attackTimes 2 (steppedIn level_2_1)) = {["orc1"]} ∪ ∅
  /\ heroHealth (attackTimes 2 (steppedIn level_2_1)) = 100 - (2 - 1) * 10.
Proof.
  destruct (enemy_dies_after_enough_attacks (steppedIn level_2_1) [] []
              "orc1" (mkEnemyData 40 40 10 (mkPos 2 1)))
    as (_ & _ & _ & Hdef & Hhealth);
    [reflexivity | reflexivity | cbn; lia | constructor |].
  by split.
Defined.

(** ** Invariants of what the hero goes through

    Like [runCommands_invariant], for properties that also speak of the
    hero's health, the death flag and the events: every step of a run is
    taken by a hero who can act, and a finished run either ends in the
    goal evaluation of a hero not marked dead or stops where the hero
    could no longer act. *)

Lemma getAdjacentEnemies_elem s e :
  e ∈ getAdjacentEnemies s -> e ∈ enemyMap s /\ 0 < health e.2.
Proof.
  unfold getAdjacentEnemies. rewrite list_elem_of_In, in_flat_map.
  intros (dir & _ & Hin). apply filter_In in Hin as [Hin Hlive].
  apply liveAt_true in Hlive as [_ ?]. by rewrite list_elem_of_In.
Qed.

Lemma performEnemyAttack_active e s :
  heroActive s ->
  heroActive (performEnemyAttack e s) \/ heroHealth (performEnemyAttack e s) <= 0.
Proof.
  intros [Hdead Hhealth].
  destruct (Z.leb_spec (heroHealth s - damage e.2) 0) as [Hle|Hgt].
  - right. by rewrite performEnemyAttack_fatal.
  - left. rewrite performEnemyAttack_alive by done. by split.
Qed.

Section ActiveRun.

Variable level : Level.
Variable P : State -> Prop.

Hypothesis A_move :
  forall s pos, P s -> heroActive s -> isValidPosition level s pos = true ->
                P (set_heroPosition pos s).
Hypothesis A_hit :
  forall s e, P s -> heroActive s -> e ∈ enemyMap s -> 0 < health e.2 ->
              P (performEnemyAttack e s).
Hypothesis A_turn : forall s d, P s -> heroActive s -> P (set_heroDirection d s).
Hypothesis A_collect : forall s, P s -> heroActive s -> P (collectGem level s).2.
Hypothesis A_attack : forall s, P s -> heroActive s -> P (attackEnemy s).

Lemma attackPass_active adj s :
  P s -> heroActive s ->
  Forall (fun e => e ∈ enemyMap s /\ 0 < health e.2) adj ->
  P (attackPass adj s)
  /\ (heroActive (attackPass adj s) \/ heroHealth (attackPass adj s) <= 0).
Proof.
  revert s; induction adj as [|e adj IH]; intros s Hs Hactive Hadj; cbn.
  - split; [done | by left].
  - destruct (Z.leb_spec (heroHealth s) 0) as [Hle|_]; [split; [done | by right]|].
    apply Forall_cons in Hadj as [[Hin Hlive] Hadj].
    pose proof (A_hit s e Hs Hactive Hin Hlive) as Hs1.
    destruct (performEnemyAttack_active e s Hactive) as [Hactive1|Hspent].
    + apply IH; [done | done |].
      destruct (performEnemyAttack_sameWorld e s) as (_ & _ & _ & -> & _). done.
    + rewrite attackPass_spent by done. split; [done | by right].
Qed.

Lemma checkAdjacentEnemies_active fuel s :
  P s ->
  match checkAdjacentEnemies fuel s with
  | Done _ s' => P s'
  | OutOfFuel s' => P s' /\ heroActive s'
  end.
Proof.
  revert s; induction fuel as [|fuel IH]; intros s Hs;
    rewrite checkAdjacentEnemies_unfold;
    (destruct ((0 <? heroHealth s) && negb (heroDead s)) eqn:Htest; [|done]);
    apply heroActive_test in Htest;
    (destruct (getAdjacentEnemies s) as [|e adj] eqn:Hadj; [done|]);
    cbv zeta;
    (destruct (attackPass_active (e :: adj) s Hs Htest) as [Hpass Hstill];
      [rewrite <- Hadj; apply Forall_forall; intros x Hx;
       by apply getAdjacentEnemies_elem|]);
    destruct (Z.leb_spec (heroHealth (attackPass (e :: adj) s)) 0) as [Hle|Hgt];
    try done.
  - split; [done|]. destruct Hstill; [done | lia].
  - by apply IH.
Qed.

Lemma moveHero_active fuel steps s :
  P s -> heroActive s ->
  match moveHero level fuel steps s with
  | Done _ s' => P s'
  | OutOfFuel s' => P s' /\ heroActive s'
  end.
Proof.
  intros Hs Hactive. unfold moveHero.
  destruct (isValidPosition level s _) eqn:Hvalid; cbn; [|done].
  pose proof (checkAdjacentEnemies_active fuel
                (set_heroPosition
                   (getPositionInDirection (heroPosition s) (heroDirection s) steps) s)
                (A_move _ _ Hs Hactive Hvalid)) as Hloop.
  by destruct (checkAdjacentEnemies fuel _).
Qed.

Lemma executeCommand_active fuel command s :
  P s -> heroActive s ->
  match executeCommand level fuel command s with
  | Done _ s' => P s'
  | OutOfFuel s' => P s' /\ heroActive s'
  end.
Proof.
  intros Hs Hactive. unfold executeCommand.
  case_decide.
  { pose proof (moveHero_active fuel 1 s Hs Hactive).
    by destruct (moveHero level fuel 1 s). }
  case_decide.
  { pose proof (moveHero_active fuel (-1) s Hs Hactive).
    by destruct (moveHero level fuel (-1) s). }
  repeat case_decide; cbn; [by apply A_turn | by apply A_turn
                            | by apply A_collect | by apply A_attack | done].
Qed.

Lemma runCommands_active fuel commands s :
  P s ->
  match runCommands level fuel commands s with
  | Done _ s' =>
      exists s0, P s0
        /\ ((heroDead s0 = false /\ s' = checkWinCondition level s0)
            \/ (~ heroActive s0 /\ s' = s0))
  | OutOfFuel s' => P s' /\ heroActive s'
  end.
Proof.
  revert s; induction commands as [|c rest IH]; intros s Hs; cbn.
  - exists s. split; [done|]. destruct (heroDead s) eqn:Hdead; cbn.
    + right. split; [|done]. intros [? _]. congruence.
    + by left.
  - destruct (heroDead s || (heroHealth s <=? 0)) eqn:Htest.
    + exists s. split; [done|]. right. split; [|done].
      intros [Hdead Hhealth]. rewrite Hdead in Htest; cbn in Htest.
      apply Z.leb_le in Htest. lia.
    + apply orb_false_iff in Htest as [Hdead Hhealth].
      apply Z.leb_gt in Hhealth.
      pose proof (executeCommand_active fuel c s Hs (conj Hdead Hhealth)) as Hc.
      destruct (executeCommand level fuel c s); cbn; [by apply IH | done].
Qed.

End ActiveRun.

(** ** What a run reports *)

Lemma verdicts_emit e s :
  verdicts (emit e s) = verdicts s ++ (if isComplete e then [e] else []).
Proof. unfold verdicts; cbn. rewrite List.filter_app; cbn. by destruct (isComplete e). Qed.

Lemma verdictPending_active s :
  verdictPending s -> heroActive s -> heroDead s = false /\ verdicts s = [].
Proof.
  intros [[? ?]|(Hdead & _)] [Hnot _]; [done | congruence].
Qed.

Lemma verdictPending_run level fuel commands s :
  verdictPending s ->
  match runCommands level fuel commands s with
  | Done _ s' =>
      exists s0, verdictPending s0
        /\ ((heroDead s0 = false /\ s' = checkWinCondition level s0)
            \/ (~ heroActive s0 /\ s' = s0))
  | OutOfFuel s' => verdictPending s' /\ heroActive s'
  end.
Proof.
  apply (runCommands_active level verdictPending).
  - by intros s1 pos Hs _ _.
  - intros s1 e Hs Hactive _ _.
    destruct (verdictPending_active s1 Hs Hactive) as [Hdead Hnone].
    destruct (Z.leb_spec (heroHealth s1 - damage e.2) 0) as [Hle|Hgt].
    + right. rewrite performEnemyAttack_fatal by done.
      unfold handleHeroDeath. rewrite verdicts_emit.
      split_and!; [done | done |].
      change (verdicts (set_heroDead true ?x)) with (verdicts x).
      rewrite verdicts_emit. change (verdicts (set_heroHealth ?h ?x)) with (verdicts x).
      by rewrite Hnone.
    + left. rewrite performEnemyAttack_alive by done.
      split; [done|]. rewrite verdicts_emit.
      change (verdicts (set_heroHealth ?h ?x)) with (verdicts x). by rewrite Hnone.
  - by intros s1 d Hs _.
  - intros s1 Hs _. unfold collectGem. by destruct (List.find _ _).
  - intros s1 Hs Hactive.
    destruct (verdictPending_active s1 Hs Hactive) as [Hdead Hnone].
    left. unfold attackEnemy. destruct (getEnemyAhead s1) as [[id data]|]; [|done].
    cbv zeta. destruct (_ <=? 0); [done|]. split; [done|].
    rewrite verdicts_emit. cbn. by rewrite app_nil_r.
Qed.

Lemma checkWinCondition_verdict level s :
  checkWinCondition level s = emit (goalVerdict level s) s.
Proof. unfold checkWinCondition, goalVerdict. by destruct (forallb _ _). Qed.

Lemma goalVerdict_emit level e s :
  goalVerdict level (emit e s) = goalVerdict level s.
Proof. reflexivity. Qed.

(** X7.  A run tells its caller at most one verdict.  Out of fuel inside an
    adjacency check, nothing has been reported yet.  A finished run has
    reported the defeat, with the hero marked dead and health spent; or,
    with the hero not marked dead, the one result of the goal evaluation in
    the final state, success exactly when every goal is met there; or
    nothing at all, which happens only when the hero's health is spent
    without the hero being marked dead. *)
Theorem run_reports_at_most_once
    (level : Level) (fuel : nat) (commands : list string) :
  match executeCommands level fuel commands with
  | OutOfFuel s' => heroActive s' /\ verdicts s' = []
  | Done _ s' =>
      (heroDead s' = true /\ heroHealth s' <= 0
       /\ verdicts s' = [Complete false deathMessage])
      \/ (heroDead s' = false /\ verdicts s' = [goalVerdict level s'])
      \/ (heroDead s' = false /\ heroHealth s' <= 0 /\ verdicts s' = [])
  end.
Proof.
  pose proof (verdictPending_run level fuel commands (resetGame level)) as Hrun.
  unfold executeCommands.
  destruct (runCommands level fuel commands (resetGame level)) as [[] s'|s'].
  - destruct Hrun as (s0 & Hs0 & [[Hdead ->]|[Hidle ->]]); [by left| |].
    + right; left. destruct Hs0 as [[_ Hnone]|[? _]]; [|congruence].
      rewrite checkWinCondition_verdict. split; [done|].
      rewrite goalVerdict_emit, verdicts_emit, Hnone.
      unfold goalVerdict. by destruct (forallb _ _).
    + destruct Hs0 as [[Hdead Hnone]|?]; [|by left].
      right; right. split_and!; [done | | done].
      destruct (Z.leb_spec (heroHealth s0) 0); [done|].
      exfalso. apply Hidle. by split.
  - destruct Hrun as [Hs0 Hactive]; [by left|]. split; [done|].
    by destruct (verdictPending_active s' Hs0 Hactive).
Qed.

(** ** The hero's health *)

Lemma drawEnemies_entry level entry :
  entry ∈ drawEnemies level -> exists e, e ∈ enemies level /\ entry = enemyEntry e.
Proof.
  unfold drawEnemies.
  assert (Hgen : forall acc,
    entry ∈ fold_left createEnemy (enemies level) acc ->
    entry ∈ acc \/ exists e, e ∈ enemies level /\ entry = enemyEntry e).
  { induction (enemies level) as [|e es IH]; intros acc; cbn; [by left|].
    intros Hin. destruct (IH _ Hin) as [Hacc|(e' & He' & Heq)].
    - destruct entry as [k v].
      apply map_set_elem in Hacc as [Heq|Hacc]; [|by left].
      right. exists e. split; [apply list_elem_of_here | done].
    - right. exists e'. split; [by apply elem_of_cons; right | done]. }
  intros Hin. destruct (Hgen [] Hin) as [Hnil|?]; [|done].
  by apply elem_of_nil in Hnil.
Qed.

Lemma updateFirst_damage found h m :
  Forall (fun e => 0 <= damage e.2) m ->
  Forall (fun e => 0 <= damage e.2) (updateFirst found (withHealth h) m).
Proof.
  induction 1 as [|e m He Hm IH]; cbn; [done|].
  destruct (found e); by constructor.
Qed.

Lemma hero_health_run level fuel commands s :
  Forall (fun e => 0 <= damage e.2) (enemyMap s) ->
  heroHealth (outcome_state (runCommands level fuel commands s)) <= heroHealth s.
Proof.
  intros Hdamage.
  assert (Hrun :
    match runCommands level fuel commands s with
    | Done _ s' =>
        exists s0,
          (heroHealth s0 <= heroHealth s
           /\ Forall (fun e => 0 <= damage e.2) (enemyMap s0))
          /\ ((heroDead s0 = false /\ s' = checkWinCondition level s0)
              \/ (~ heroActive s0 /\ s' = s0))
    | OutOfFuel s' =>
        (heroHealth s' <= heroHealth s
         /\ Forall (fun e => 0 <= damage e.2) (enemyMap s'))
        /\ heroActive s'
    end).
  { apply (runCommands_active level
             (fun s' => heroHealth s' <= heroHealth s
                        /\ Forall (fun e => 0 <= damage e.2) (enemyMap s'))).
    - by intros s1 pos Hs _ _.
    - intros s1 e [Hle Hall] _ Hin _.
      destruct (performEnemyAttack_sameWorld e s1) as (_ & _ & _ & -> & _).
      split; [|done].
      assert (0 <= damage e.2) by (by apply (proj1 (Forall_forall _ _) Hall)).
      unfold performEnemyAttack; cbn. destruct (_ <=? 0); cbn; lia.
    - by intros s1 d Hs _.
    - intros s1 Hs _. unfold collectGem. by destruct (List.find _ _).
    - intros s1 [Hle Hall] _. unfold attackEnemy.
      destruct (getEnemyAhead s1) as [[id data]|] eqn:Hahead; [|done].
      apply getEnemyAhead_Some in Hahead as (before & after & Hmap & _).
      assert (0 <= damage data).
      { apply (proj1 (Forall_forall _ _) Hall (id, data)). rewrite Hmap.
        apply elem_of_app; right. apply list_elem_of_here. }
      cbv zeta. destruct (_ <=? 0); cbn;
        (split; [lia | by apply updateFirst_damage]).
    - split; [lia | done]. }
  destruct (runCommands level fuel commands s) as [[] s'|s']; cbn.
  - destruct Hrun as (s0 & [Hle _] & [[_ ->]|[_ ->]]); [|done].
    by rewrite checkWinCondition_verdict.
  - by destruct Hrun as [[Hle _] _].
Qed.

(** X8.  When no enemy of the level has negative damage the hero's health
    never rises: from any state of a run on, whatever commands follow, the
    health stays at or below what it was, and so it never exceeds the 100
    the run starts with. *)
Theorem hero_health_never_rises
    (level : Level) (fuel : nat) (commands : list string) :
  (forall e, e ∈ enemies level -> 0 <= enemy_damage e) ->
  heroHealth (outcome_state (executeCommands level fuel commands)) <= 100
  /\ forall s more,
       Forall (fun e => 0 <= damage e.2) (enemyMap s) ->
       heroHealth (outcome_state (runCommands level fuel more s)) <= heroHealth s.
Proof.
  intros Hdamage. split; [|intros s more; apply hero_health_run].
  unfold executeCommands.
  change 100 with (heroHealth (resetGame level)).
  apply hero_health_run. apply Forall_forall. intros entry Hin.
  apply drawEnemies_entry in Hin as (e & He & ->). cbn. by apply Hdamage.
Qed.

Lemma hero_health_witness :
  heroHealth (outcome_state (executeCommands bossLevel 0 ["attack"; "turn_left"])) <= 100.
Proof.
  destruct (hero_health_never_rises bossLevel 0%nat ["attack"; "turn_left"])
    as [Hle _]; [|exact Hle].
  intros e He. apply list_elem_of_singleton in He as ->. cbn. lia.
Defined.

(** ** The enemies through a run *)

Lemma map_set_keys {V : Type} (k : string) (v : V) (m : list (string * V)) :
  map fst (map_set k v m)
  = if decide (k ∈ map fst m) then map fst m else map fst m ++ [k].
Proof.
  induction m as [|[k0 v0] m IH]; cbn.
  - rewrite decide_False; [done | apply not_elem_of_nil].
  - destruct (decide (k0 = k)) as [->|Hne]; cbn.
    + rewrite decide_True; [done | apply list_elem_of_here].
    + rewrite IH. destruct (decide (k ∈ map fst m)) as [Hin|Hout].
      * rewrite decide_True; [done | by apply elem_of_cons; right].
      * rewrite decide_False; [done|].
        intros [?|?]%elem_of_cons; [congruence | done].
Qed.

Lemma map_set_NoDup {V : Type} (k : string) (v : V) (m : list (string * V)) :
  NoDup (map fst m) -> NoDup (map fst (map_set k v m)).
Proof.
  intros Hnd. rewrite map_set_keys. case_decide; [done|].
  apply NoDup_app. split_and!; [done | | apply NoDup_singleton].
  intros x Hx ->%list_elem_of_singleton. done.
Qed.

Lemma drawEnemies_NoDup level : NoDup (map fst (drawEnemies level)).
Proof.
  unfold drawEnemies.
  assert (Hgen : forall acc, NoDup (map fst acc) ->
                 NoDup (map fst (fold_left createEnemy (enemies level) acc))).
  { induction (enemies level) as [|e es IH]; intros acc Hacc; cbn; [done|].
    apply IH. by apply map_set_NoDup. }
  apply Hgen. constructor.
Qed.

Lemma Forall2_sameEnemy_refl m : Forall2 sameEnemy m m.
Proof.
  induction m as [|e m IH]; constructor; [|done].
  unfold sameEnemy. split_and!; try done; lia.
Qed.

Lemma enemiesTracked_reset level : enemiesTracked level (resetGame level).
Proof.
  split_and!; cbn.
  - apply drawEnemies_NoDup.
  - apply Forall2_sameEnemy_refl.
  - apply Forall_forall. intros entry Hin.
    apply drawEnemies_entry in Hin as (e & _ & ->).
    split; cbn; [lia|]. split; [by intros ?%not_elem_of_empty | lia].
  - apply empty_subseteq.
Qed.

(** The state after a hit on the entry [(id, d)]: its health is [h], lower
    than before, and the defeated set has gained [id] exactly if [h] is 0
    or below. *)
Lemma enemiesTracked_hit level s s' before id d after h :
  enemiesTracked level s ->
  enemyMap s = before ++ (id, d) :: after ->
  0 < health d -> h < health d ->
  enemyMap s' = before ++ (id, withHealth h d) :: after ->
  (h <= 0 /\ defeatedEnemies s' = {[id]} ∪ defeatedEnemies s
   \/ 0 < h /\ defeatedEnemies s' = defeatedEnemies s) ->
  enemiesTracked level s'.
Proof.
  intros (Hnd & Hsame & Hrec & Hsub) Hmap Hlive Hless Hmap' Hdef.
  rewrite Hmap in Hnd, Hsame, Hrec, Hsub.
  rewrite map_app in Hnd, Hsub. cbn in Hnd, Hsub.
  apply NoDup_app in Hnd as (Hnd1 & Hdisj & Hnd2).
  apply NoDup_cons in Hnd2 as [Hid_after Hnd2].
  assert (Hid_before : id ∉ map fst before).
  { intros Hin. apply (Hdisj id Hin), list_elem_of_here. }
  apply Forall_app in Hrec as [Hrec1 Hrec2].
  apply Forall_cons in Hrec2 as [[Hmax Hid] Hrec2]. cbn in Hmax, Hid.
  assert (Hkeep : forall l, id ∉ map fst l ->
            Forall (defeatRecorded s) l -> Forall (defeatRecorded s') l).
  { intros l Hout Hall. apply Forall_forall. intros e He.
    pose proof (proj1 (Forall_forall _ _) Hall e He) as [He1 He2].
    split; [done|]. rewrite <- He2.
    assert (e.1 <> id).
    { intros <-. apply Hout, list_elem_of_fmap. by exists e. }
    destruct Hdef as [[_ ->]|[_ ->]]; [|done].
    rewrite elem_of_union, elem_of_singleton. tauto. }
  unfold enemiesTracked. rewrite Hmap'. split_and!.
  - rewrite map_app; cbn. apply NoDup_app. split_and!; [done | done |].
    by apply NoDup_cons.
  - apply Forall2_app_inv_r in Hsame as (l1 & l2 & Hl1 & Hl2 & ->).
    apply Forall2_cons_inv_r in Hl2 as (e0 & l2' & He0 & Hl2' & ->).
    apply Forall2_app; [done|]. constructor; [|done].
    destruct He0 as (K1 & K2 & K3 & K4 & K5). cbn in *.
    unfold sameEnemy; cbn. split_and!; try done; lia.
  - apply Forall_app. split; [by apply Hkeep|].
    apply Forall_cons. split; [|by apply Hkeep].
    split; cbn; [lia|].
    destruct Hdef as [[Hle ->]|[Hgt ->]].
    + split; [intros _; split; lia|].
      intros _. by apply elem_of_union_l, elem_of_singleton.
    + split; [intros Hin; apply Hid in Hin; lia | lia].
  - rewrite map_app; cbn.
    destruct Hdef as [[_ ->]|[_ ->]]; [|done].
    apply union_subseteq. split; [|done].
    apply singleton_subseteq_l, elem_of_list_to_set, elem_of_app. right.
    apply list_elem_of_here.
Qed.

Lemma enemiesTracked_attack level s :
  enemiesTracked level s -> enemiesTracked level (attackEnemy s).
Proof.
  intros Htracked.
  destruct (getEnemyAhead s) as [[id d]|] eqn:Hahead;
    [|unfold attackEnemy; by rewrite Hahead].
  destruct (getEnemyAhead_Some s _ Hahead)
    as (before & after & Hmap & Hpos & Hlive & Hbefore).
  cbn in Hpos, Hlive.
  assert (Hbefore' : Forall (fun e' => ~ (position e'.2 = aheadPos s
                                         /\ 0 < health e'.2)) before).
  { eapply Forall_impl; [exact Hbefore|]. intros e' Hdead Hl.
    apply liveAt_true in Hl. congruence. }
  rewrite (attackEnemy_hit s before id d after Hmap Hpos Hlive Hbefore').
  unfold heroAttackDamage.
  destruct (Z.leb_spec (health d - 20) 0) as [Hle|Hgt].
  - eapply (enemiesTracked_hit level s _ before id d after (health d - 20));
      [done | done | done | lia | done | left; by split].
  - eapply (enemiesTracked_hit level s _ before id d after (health d - 20));
      [done | done | done | lia | done | right; by split].
Qed.

Lemma enemiesTracked_run level fuel commands s :
  enemiesTracked level s ->
  enemiesTracked level (outcome_state (runCommands level fuel commands s)).
Proof.
  apply (runCommands_invariant level (enemiesTracked level)).
  - by intros s1 pos Hs _.
  - intros s1 s2 (_ & _ & _ & Hm & Hd) Hs. unfold enemiesTracked, defeatRecorded.
    by rewrite Hm, Hd.
  - by intros s1 d Hs.
  - intros s1 Hs. unfold collectGem. by destruct (List.find _ _).
  - apply enemiesTracked_attack.
Qed.

Lemma size_list_to_set_le (l : list string) :
  (size (list_to_set l : gset string) <= length l)%nat.
Proof.
  induction l as [|x l IH]; cbn; [by rewrite size_empty|].
  rewrite size_union_alt, size_singleton.
  assert (Hsub : (list_to_set l : gset string) ∖ {[x]} ⊆ list_to_set l)
    by (by apply subseteq_difference_l).
  apply subseteq_size in Hsub. lia.
Qed.

Lemma map_set_length {V : Type} (k : string) (v : V) (m : list (string * V)) :
  (length (map_set k v m) <= S (length m))%nat.
Proof.
  induction m as [|[k0 v0] m IH]; cbn; [lia|]. case_decide; cbn; lia.
Qed.

Lemma drawEnemies_length level :
  (length (drawEnemies level) <= length (enemies level))%nat.
Proof.
  unfold drawEnemies.
  assert (Hgen : forall acc,
    (length (fold_left createEnemy (enemies level) acc)
     <= length acc + length (enemies level))%nat).
  { induction (enemies level) as [|e es IH]; intros acc; cbn; [lia|].
    etrans; [apply IH|]. pose proof (map_set_length (enemy_id e)
      (mkEnemyData (enemy_health e) (enemy_health e) (enemy_damage e)
         (enemy_position e)) acc). unfold createEnemy. lia. }
  apply (Hgen []).
Qed.

(** X9.  Through a whole run the enemies stay what the level made them:
    the same entries under the same distinct ids in the same order, on the
    same cells, with the same damage and maximum health; the health of an
    enemy never rises and never exceeds its maximum. *)
Theorem enemies_never_move_or_heal
    (level : Level) (fuel : nat) (commands : list string) :
  let s := outcome_state (executeCommands level fuel commands) in
  NoDup (map fst (enemyMap s))
  /\ Forall2 sameEnemy (drawEnemies level) (enemyMap s)
  /\ Forall (fun e => health e.2 <= maxHealth e.2) (enemyMap s).
Proof.
  intros s.
  destruct (enemiesTracked_run level fuel commands (resetGame level)
              (enemiesTracked_reset level)) as (Hnd & Hsame & Hrec & _).
  split_and!; [done | done |].
  eapply Forall_impl; [exact Hrec|]. by intros e [? _].
Qed.

Lemma defeated_grows level fuel commands s :
  defeatedEnemies s
  ⊆ defeatedEnemies (outcome_state (runCommands level fuel commands s)).
Proof.
  apply (runCommands_invariant level
           (fun s' => defeatedEnemies s ⊆ defeatedEnemies s'));
    [done | | done | | | done].
  - by intros s1 s2 (_ & _ & _ & _ & ->).
  - intros s1 Hs. unfold collectGem. by destruct (List.find _ _).
  - intros s1 Hs. unfold attackEnemy.
    destruct (getEnemyAhead s1) as [[id data]|]; [|done].
    cbv zeta. destruct (_ <=? 0); cbn; [|done].
    etrans; [exact Hs|]. apply union_subseteq_r.
Qed.

(** X10.  The defeated set holds exactly the ids of the enemies that an
    attack has brought from positive health to 0 or below: every id in it
    is the id of an enemy of the level whose health is now spent, so that
    enemy no longer blocks or attacks, and no other enemy is in it.  The
    set never counts more ids than the level has enemies, and along a run
    it only grows. *)
Theorem defeated_set_is_the_dead
    (level : Level) (fuel : nat) (commands : list string) :
  let s := outcome_state (executeCommands level fuel commands) in
  (forall id d, (id, d) ∈ enemyMap s ->
     (id ∈ defeatedEnemies s <-> health d <= 0 /\ 0 < maxHealth d))
  /\ (forall id, id ∈ defeatedEnemies s ->
        exists d, (id, d) ∈ enemyMap s /\ health d <= 0
                  /\ forall pos, liveAt pos (id, d) = false)
  /\ (size (defeatedEnemies s) <= length (enemies level))%nat
  /\ forall s0 more,
       defeatedEnemies s0
       ⊆ defeatedEnemies (outcome_state (runCommands level fuel more s0)).
Proof.
  intros s.
  pose proof (enemiesTracked_run level fuel commands (resetGame level)
                (enemiesTracked_reset level)) as Htracked.
  change (enemiesTracked level s) in Htracked.
  destruct Htracked as (Hnd & Hsame & Hrec & Hsub).
  assert (Hiff : forall id d, (id, d) ∈ enemyMap s ->
            (id ∈ defeatedEnemies s <-> health d <= 0 /\ 0 < maxHealth d)).
  { intros id d Hin. by destruct (proj1 (Forall_forall _ _) Hrec (id, d) Hin). }
  split_and!.
  - exact Hiff.
  - intros id Hid. pose proof (Hsub id Hid) as Hkey.
    apply elem_of_list_to_set, list_elem_of_fmap in Hkey as ([id' d] & -> & Hin).
    exists d. cbn in *. destruct (proj1 (Hiff id' d Hin) Hid) as [Hle _].
    split_and!; [done | done |]. intros pos. unfold liveAt; cbn.
    destruct (Z.ltb_spec 0 (health d)); [lia|]. by rewrite andb_false_r.
  - apply subseteq_size in Hsub.
    pose proof (size_list_to_set_le (map fst (enemyMap s))) as Hle.
    rewrite length_map in Hle.
    apply Forall2_length in Hsame.
    pose proof (drawEnemies_length level). lia.
  - intros s0 more. apply defeated_grows.
Qed.

(** ** From the level's enemy list to the scene's map *)

Lemma map_set_fresh {V : Type} (k : string) (v : V) (m : list (string * V)) :
  k ∉ map fst m -> map_set k v m = m ++ [(k, v)].
Proof.
  induction m as [|[k0 v0] m IH]; cbn; [done|].
  intros Hout. apply not_elem_of_cons in Hout as [Hne Hout].
  rewrite decide_False by done. by rewrite IH.
Qed.

Lemma map_set_here {V : Type} (k : string) (v : V) (m : list (string * V)) :
  (k, v) ∈ map_set k v m.
Proof.
  induction m as [|[k0 v0] m IH]; cbn; [apply list_elem_of_here|].
  case_decide; [apply list_elem_of_here | by apply elem_of_cons; right].
Qed.

Lemma map_set_other {V : Type} (k k' : string) (v v' : V) (m : list (string * V)) :
  k' <> k -> (k, v) ∈ m -> (k, v) ∈ map_set k' v' m.
Proof.
  intros Hne. induction m as [|[k0 v0] m IH]; cbn; [by intros ?%elem_of_nil|].
  intros [[= <- <-]|Hin]%elem_of_cons.
  - rewrite decide_False by done. apply list_elem_of_here.
  - case_decide; apply elem_of_cons; right; [done | by apply IH].
Qed.

Lemma fold_createEnemy_keeps es acc entry :
  entry.1 ∉ map enemy_id es -> entry ∈ acc ->
  entry ∈ fold_left createEnemy es acc.
Proof.
  revert acc; induction es as [|e es IH]; intros acc Hout Hin; cbn; [done|].
  cbn in Hout. apply not_elem_of_cons in Hout as [Hne Hout].
  apply IH; [done|]. destruct entry as [k v].
  by apply map_set_other.
Qed.

Lemma fold_createEnemy_distinct es acc :
  NoDup (map enemy_id es) ->
  (forall id, id ∈ map fst acc -> id ∉ map enemy_id es) ->
  fold_left createEnemy es acc = acc ++ map enemyEntry es.
Proof.
  revert acc; induction es as [|e es IH]; intros acc Hnd Hdisj; cbn;
    [by rewrite app_nil_r|].
  cbn in Hnd. apply NoDup_cons in Hnd as [Hfresh Hnd].
  unfold createEnemy at 2. rewrite map_set_fresh.
  - rewrite IH; [by rewrite <- app_assoc | done |].
    intros id Hin. rewrite map_app in Hin. cbn in Hin.
    apply elem_of_app in Hin as [Hin|Hin].
    + specialize (Hdisj id Hin). cbn in Hdisj.
      by apply not_elem_of_cons in Hdisj as [_ ?].
    + apply list_elem_of_singleton in Hin as ->. done.
  - intros Hin. apply (Hdisj _ Hin). apply list_elem_of_here.
Qed.


(** X11.  The scene's enemy map is built from the level's enemy list.  Its
    ids are distinct and each entry is the entry of some enemy of the
    level, with full health as its maximum; of several enemies listed
    under one id the map keeps the data of the last one; and when the ids
    of the level are distinct the map lists the enemies one for one, in
    the level's order. *)
Theorem enemy_map_from_level (level : Level) :
  NoDup (map fst (drawEnemies level))
  /\ (forall entry, entry ∈ drawEnemies level ->
        exists e, e ∈ enemies level /\ entry = enemyEntry e)
  /\ (forall before e after,
        enemies level = before ++ e :: after ->
        enemy_id e ∉ map enemy_id after ->
        enemyEntry e ∈ drawEnemies level)
  /\ (NoDup (map enemy_id (enemies level)) ->
      drawEnemies level = map enemyEntry (enemies level)).
Proof.
  split_and!.
  - apply drawEnemies_NoDup.
  - apply drawEnemies_entry.
  - intros before e after Heq Hlast. unfold drawEnemies. rewrite Heq.
    rewrite fold_left_app. cbn.
    apply fold_createEnemy_keeps; [done|]. apply map_set_here.
  - intros Hnd. unfold drawEnemies.
    rewrite fold_createEnemy_distinct; [done | done |].
    by intros id ?%elem_of_nil.
Qed.

Lemma enemy_map_witness :
  enemyEntry (mkEnemy "orc1" (mkPos 2 1) 40 10) ∈ drawEnemies level_2_1
  /\ drawEnemies twoGuardsLevel = map enemyEntry (enemies twoGuardsLevel).
Proof.
  split.
  - apply (enemy_map_from_level level_2_1)
      with (before := []) (after := []); [reflexivity | apply not_elem_of_nil].
  - apply (enemy_map_from_level twoGuardsLevel).
    cbn. repeat constructor; [|apply not_elem_of_nil].
    intros Hin%list_elem_of_singleton. discriminate.
Defined.

(** ** What the counting goals mean *)

Lemma size_list_to_set_lt (l : list string) :
  ~ NoDup l -> (size (list_to_set l : gset string) < length l)%nat.
Proof.
  induction l as [|x l IH]; intros Hdup; [destruct Hdup; constructor|].
  cbn. destruct (decide (x ∈ l)) as [Hin|Hout].
  - assert (Hsub : {[x]} ∪ (list_to_set l : gset string) ⊆ list_to_set l).
    { apply union_subseteq. split; [|done].
      by apply singleton_subseteq_l, elem_of_list_to_set. }
    apply subseteq_size in Hsub. pose proof (size_list_to_set_le l). lia.
  - assert (Hdup' : ~ NoDup l).
    { intros Hnd. apply Hdup. by apply NoDup_cons. }
    specialize (IH Hdup').
    rewrite size_union_alt, size_singleton.
    assert (Hsub : (list_to_set l : gset string) ∖ {[x]} ⊆ list_to_set l)
      by (by apply subseteq_difference_l).
    apply subseteq_size in Hsub. lia.
Qed.

(** X12.  At the end of a run, or wherever it is cut, a [collect_all] goal
    is met exactly when the id of every collectible of the level has been
    collected, provided the level gives its collectibles distinct ids; a
    level that lists two collectibles under one id can never meet it. *)
Theorem collect_all_goal_meaning
    (level : Level) (fuel : nat) (commands : list string)
    (description : string) :
  let s := outcome_state (executeCommands level fuel commands) in
  (NoDup (map collectible_id (collectibles level)) ->
   (goalMet level s (collectAllGoal description) = true
    <-> forall c, c ∈ collectibles level -> collectible_id c ∈ collectedIds s))
  /\ (~ NoDup (map collectible_id (collectibles level)) ->
      goalMet level s (collectAllGoal description) = false).
Proof.
  intros s.
  destruct (runCommands_collected level fuel commands (resetGame level))
    as [_ Hsub]; [apply empty_subseteq|].
  change (collectedIds s ⊆ collectibleIds level) in Hsub.
  unfold goalMet; cbn. split.
  - intros Hnd. rewrite bool_decide_eq_true.
    pose proof (size_list_to_set (C := gset string) _ Hnd) as Hsize.
    rewrite length_map in Hsize. fold (collectibleIds level) in Hsize.
    split.
    + intros Heq c Hc.
      assert (collectedIds s = collectibleIds level) as ->.
      { apply set_subseteq_size_eq; [done | lia]. }
      apply elem_of_list_to_set, list_elem_of_fmap. by exists c.
    + intros Hall.
      assert (collectedIds s = collectibleIds level) as ->; [|done].
      apply set_eq. intros id. split; [apply Hsub|].
      intros Hid. apply elem_of_list_to_set, list_elem_of_fmap in Hid
        as (c & -> & Hc). by apply Hall.
  - intros Hdup. apply bool_decide_eq_false.
    apply size_list_to_set_lt in Hdup. rewrite length_map in Hdup.
    fold (collectibleIds level) in Hdup.
    apply subseteq_size in Hsub. lia.
Qed.

Lemma collect_all_witness :
  (goalMet twoGemsLevel
     (outcome_state (executeCommands twoGemsLevel 0
                       ["collect_sample"; "collect_sample"]))
     (collectAllGoal "all") = true
   <-> forall c, c ∈ collectibles twoGemsLevel ->
         collectible_id c
         ∈ collectedIds
             (outcome_state (executeCommands twoGemsLevel 0
                               ["collect_sample"; "collect_sample"])))
  /\ goalMet twinGemsLevel
       (outcome_state (executeCommands twinGemsLevel 0
                         ["collect_sample"; "collect_sample"]))
       (collectAllGoal "all") = false.
Proof.
  split.
  - apply (collect_all_goal_meaning twoGemsLevel 0%nat
             ["collect_sample"; "collect_sample"] "all").
    cbn. repeat constructor; [|apply not_elem_of_nil].
    intros Hin%list_elem_of_singleton. discriminate.
  - apply (collect_all_goal_meaning twinGemsLevel 0%nat
             ["collect_sample"; "collect_sample"] "all").
    cbn. intros Hnd. apply NoDup_cons in Hnd as [Hout _].
    apply Hout, list_elem_of_here.
Defined.



(** ** What a command leaves alone *)

Lemma moveHero_frame level fuel steps s :
  let s' := outcome_state (moveHero level fuel steps s) in
  heroDirection s' = heroDirection s
  /\ collectedIds s' = collectedIds s
  /\ enemyMap s' = enemyMap s
  /\ defeatedEnemies s' = defeatedEnemies s.
Proof.
  unfold moveHero. destruct (negb _); cbn; [done|].
  pose proof (checkAdjacentEnemies_sameWorld fuel
                (set_heroPosition
                   (getPositionInDirection (heroPosition s) (heroDirection s) steps) s))
    as (_ & Hd & Hc & Hm & Hde).
  by destruct (checkAdjacentEnemies fuel _).
Qed.

Lemma executeCommand_frame level fuel command s :
  let s' := outcome_state (executeCommand level fuel command s) in
  (command <> "collect_sample" -> collectedIds s' = collectedIds s)
  /\ (command <> "attack" ->
      enemyMap s' = enemyMap s /\ defeatedEnemies s' = defeatedEnemies s)
  /\ (command <> "move_forward" -> command <> "move_backward" ->
      heroPosition s' = heroPosition s)
  /\ (command <> "turn_left" -> command <> "turn_right" ->
      heroDirection s' = heroDirection s).
Proof.
  unfold executeCommand.
  case_decide as Hfwd.
  { pose proof (moveHero_frame level fuel 1 s) as (Hd & Hc & Hm & Hde).
    destruct (moveHero level fuel 1 s); cbn in *; by split_and!. }
  case_decide as Hbwd.
  { pose proof (moveHero_frame level fuel (-1) s) as (Hd & Hc & Hm & Hde).
    destruct (moveHero level fuel (-1) s); cbn in *; by split_and!. }
  case_decide; [by split_and!|]. case_decide; [by split_and!|].
  case_decide.
  { cbn. unfold collectGem. destruct (List.find _ _); by split_and!. }
  case_decide; [|by split_and!].
  destruct (attackEnemy_frame s) as (Hp & Hd & Hc). cbn. by split_and!.
Qed.

Lemma runCommands_field {A : Type} (f : State -> A) (touches : string -> Prop)
    level fuel :
  (forall s e, f (emit e s) = f s) ->
  (forall c s, ~ touches c ->
               f (outcome_state (executeCommand level fuel c s)) = f s) ->
  forall commands s,
    Forall (fun c => ~ touches c) commands ->
    f (outcome_state (runCommands level fuel commands s)) = f s.
Proof.
  intros Hemit Hexec commands.
  induction commands as [|c rest IH]; intros s Hnone; cbn.
  - destruct (negb (heroDead s)); [|done].
    by rewrite checkWinCondition_verdict.
  - destruct (_ || _); [done|].
    apply Forall_cons in Hnone as [Hc Hrest].
    specialize (Hexec c s Hc).
    destruct (executeCommand level fuel c s) as [[] s1|s1]; cbn in *; [|done].
    by rewrite IH.
Qed.

(** X14.  Each part of the state has its own commands.  In a run without
    [collect_sample] nothing is collected; without [attack] every enemy
    keeps the health it started with and none is defeated; without a move
    command the hero stays on the start cell; without a turn command the
    hero keeps the start direction. *)
Theorem commands_touch_only_their_part
    (level : Level) (fuel : nat) (commands : list string) :
  let s := outcome_state (executeCommands level fuel commands) in
  ("collect_sample" ∉ commands -> collectedIds s = ∅)
  /\ ("attack" ∉ commands ->
      enemyMap s = drawEnemies level /\ defeatedEnemies s = ∅)
  /\ ("move_forward" ∉ commands -> "move_backward" ∉ commands ->
      heroPosition s = startPosition level)
  /\ ("turn_left" ∉ commands -> "turn_right" ∉ commands ->
      heroDirection s = directionFromType (startDirection level)).
Proof.
  intros s. subst s. unfold executeCommands. split_and!.
  - intros Hnone.
    apply (runCommands_field collectedIds (fun c => c = "collect_sample"));
      [done | |].
    + intros c s Hc. by apply (executeCommand_frame level fuel c s).
    + apply Forall_forall. by intros c Hin ->.
  - intros Hnone. split.
    + apply (runCommands_field enemyMap (fun c => c = "attack")); [done | |].
      * intros c s Hc. by apply (executeCommand_frame level fuel c s).
      * apply Forall_forall. by intros c Hin ->.
    + apply (runCommands_field defeatedEnemies (fun c => c = "attack"));
        [done | |].
      * intros c s Hc. by apply (executeCommand_frame level fuel c s).
      * apply Forall_forall. by intros c Hin ->.
  - intros Hfwd Hbwd.
    apply (runCommands_field heroPosition
             (fun c => c = "move_forward" \/ c = "move_backward")); [done | |].
    + intros c s Hc. apply (executeCommand_frame level fuel c s); tauto.
    + apply Forall_forall. by intros c Hin [-> | ->].
  - intros Hleft Hright.
    apply (runCommands_field heroDirection
             (fun c => c = "turn_left" \/ c = "turn_right")); [done | |].
    + intros c s Hc. apply (executeCommand_frame level fuel c s); tauto.
    + apply Forall_forall. by intros c Hin [-> | ->].
Qed.

Lemma commands_touch_witness :
  enemyMap (outcome_state (executeCommands level_2_1 9 ["move_forward"]))
  = drawEnemies level_2_1
  /\ defeatedEnemies (outcome_state (executeCommands level_2_1 9 ["move_forward"]))
     = ∅.
Proof.
  apply (commands_touch_only_their_part level_2_1 9%nat ["move_forward"]).
  intros Hin%list_elem_of_singleton. discriminate.
Defined.

(** ** Grids of the level catalogue *)

Lemma js_index_Some {A : Type} (a : list A) (i : Z) (x : A) :
  js_index a i = Some x <-> 0 <= i /\ a !! Z.to_nat i = Some x.
Proof.
  unfold js_index. destruct (Z.ltb_spec i 0); split.
  - done.
  - intros [? _]; lia.
  - intros ?; split; [lia | done].
  - by intros [_ ?].
Qed.

Lemma js_index_insert {A : Type} (a : list A) (i j : Z) (x : A) :
  0 <= i ->
  js_index (<[Z.to_nat i := x]> a) j
  = if decide (j = i)
    then (match js_index a j with Some _ => Some x | None => None end)
    else js_index a j.
Proof.
  intros Hi. unfold js_index. destruct (Z.ltb_spec j 0) as [Hneg|Hpos].
  - case_decide; [lia | done].
  - case_decide as Heq.
    + subst j. destruct (a !! Z.to_nat i) eqn:Hlook.
      * apply list_lookup_insert_eq. by eapply lookup_lt_Some.
      * apply lookup_ge_None. rewrite length_insert. by apply lookup_ge_None.
    + apply list_lookup_insert_ne. lia.
Qed.

(** X15.  [setCell] replaces exactly the cell at (x, y) when the grid has
    one, and changes nothing when (x, y) lies outside the grid: every other
    cell, and which positions have a cell at all, stay as they were.  So a
    wall set inside the grid bounds of a level makes that cell invalid for
    the hero. *)
Theorem setCell_writes_one_cell
    (g : list (list GridCell)) (x y : Z) (type : CellType) (pos : Position) :
  gridAt (setCell g x y type) pos
  = (if decide (pos = mkPos x y)
     then (match gridAt g pos with
           | Some _ => Some (mkCell type)
           | None => None
           end)
     else gridAt g pos)
  /\ (gridAt g (mkPos x y) = None -> setCell g x y type = g)
  /\ forall level s,
       is_Some (gridAt (grid level) (mkPos x y)) ->
       isValidPosition (withGrid (setCell (grid level) x y wall) level) s
         (mkPos x y) = false.
Proof.
  assert (Hat : forall p,
    gridAt (setCell g x y type) p
    = if decide (p = mkPos x y)
      then (match gridAt g p with
            | Some _ => Some (mkCell type)
            | None => None
            end)
      else gridAt g p).
  { intros [px py]. unfold setCell, gridAt; cbn.
    destruct (js_index g y) as [row|] eqn:Hrow.
    - destruct (js_index row x) as [c|] eqn:Hcell.
      + apply js_index_Some in Hrow as [Hy Hrow'].
        apply js_index_Some in Hcell as [Hx Hcell'].
        rewrite js_index_insert by done.
        destruct (decide (py = y)) as [->|Hny].
        * assert (js_index g y = Some row) as -> by (by apply js_index_Some).
          cbn. rewrite js_index_insert by done.
          destruct (decide (px = x)) as [->|Hnx].
          -- rewrite decide_True by done.
             assert (js_index row x = Some c) as -> by (by apply js_index_Some).
             done.
          -- rewrite decide_False by congruence. done.
        * rewrite decide_False by congruence. done.
      + case_decide as Heq; [|done]. injection Heq as -> ->.
        rewrite Hrow; cbn. by rewrite Hcell.
    - case_decide as Heq; [|done]. injection Heq as -> ->. by rewrite Hrow. }
  split; [apply Hat|]. split.
  - unfold gridAt, setCell; cbn.
    destruct (js_index g y) as [row|]; cbn; [|done].
    by destruct (js_index row x).
  - intros level s [c Hc].
    apply isValidPosition_false. right; left.
    exists (mkCell wall). split; [|done].
    change (cellAt (withGrid ?g' level) ?p) with (gridAt g' p).
    clear Hat. unfold gridAt, setCell in *; cbn in *.
    destruct (js_index (grid level) y) as [row|] eqn:Hrow; [|done]. cbn in Hc.
    rewrite Hc.
    apply js_index_Some in Hrow as [Hy Hrow'].
    pose proof Hc as Hc'. apply js_index_Some in Hc' as [Hx Hcell'].
    rewrite js_index_insert, decide_True by done.
    assert (js_index (grid level) y = Some row) as -> by (by apply js_index_Some).
    cbn. rewrite js_index_insert, decide_True by done. by rewrite Hc.
Qed.

Lemma setCell_witness :
  isValidPosition
    (withGrid (setCell (grid shortLimitLevel) 1 1 wall) shortLimitLevel)
    (resetGame shortLimitLevel) (mkPos 1 1) = false
  /\ setCell openGrid53 5 1 wall = openGrid53.
Proof.
  split.
  - apply (setCell_writes_one_cell (grid shortLimitLevel) 1 1 wall (mkPos 0 0)).
    by exists floorCell.
  - by apply (setCell_writes_one_cell openGrid53 5 1 wall (mkPos 0 0)).
Defined.

(** X16.  [createEmptyGrid] gives a grid that has a cell exactly at the
    positions with 0 <= x < width and 0 <= y < height, each of them floor:
    a fresh grid has no wall, and nothing outside its bounds. *)
Theorem createEmptyGrid_all_floor (width height : Z) (pos : Position) :
  gridAt (createEmptyGrid width height) pos
  = if decide (0 <= pos_x pos < width /\ 0 <= pos_y pos < height)
    then Some (mkCell floor) else None.
Proof.
  unfold gridAt, createEmptyGrid, js_index. destruct pos as [x y]; cbn.
  destruct (Z.ltb_spec y 0) as [Hy|Hy]; cbn.
  { rewrite decide_False; [done | lia]. }
  destruct (decide (y < height)) as [Hyh|Hyh].
  - rewrite lookup_replicate_2 by lia. cbn.
    destruct (Z.ltb_spec x 0) as [Hx|Hx]; [rewrite decide_False; [done | lia]|].
    destruct (decide (x < width)) as [Hxw|Hxw].
    + rewrite lookup_replicate_2 by lia. rewrite decide_True; [done | lia].
    + rewrite decide_False by lia. apply lookup_replicate_None. lia.
  - rewrite decide_False by lia.
    assert (replicate (Z.to_nat height)
              (replicate (Z.to_nat width) (mkCell floor)) !! Z.to_nat y = None)
      as -> by (apply lookup_replicate_None; lia).
    done.
Qed.

(** ** Saved code *)

Lemma prefix_append (p s : string) : String.prefix p (p +:+ s) = true.
Proof.
  induction p as [|c p IH]; [by destruct s|].
  change (String c p +:+ s) with (String c (p +:+ s)).
  cbn [String.prefix]. destruct (Ascii.ascii_dec c c); [exact IH | congruence].
Qed.

Lemma append_inj (p a b : string) : p +:+ a = p +:+ b -> a = b.
Proof.
  induction p as [|c p IH]; [done|].
  change (String c p +:+ ?x) with (String c (p +:+ x)).
  intros [= ?]. by apply IH.
Qed.

Lemma levelCodeKey_inj id id' : levelCodeKey id = levelCodeKey id' -> id = id'.
Proof. apply append_inj. Qed.

Lemma levelCodeKey_prefix id : String.prefix LEVEL_CODE_PREFIX (levelCodeKey id) = true.
Proof. apply prefix_append. Qed.

Lemma levelCodeKey_not_test id : levelCodeKey id <> testKey.
Proof. unfold levelCodeKey, testKey. discriminate. Qed.

Section LocalStorageFacts.

Variable accepts : gmap string string -> string -> string -> bool.

Lemma isAvailable_true items items1 :
  isAvailable accepts items = (true, items1) ->
  accepts items testKey "test" = true /\ items1 = delete testKey items.
Proof.
  unfold isAvailable. destruct (accepts items testKey "test"); [|done].
  by intros [= <-].
Qed.

(** X17.  Code saved for a level is what the storage then holds for that
    level, and a later [getLevelCode] returns it whenever its own test
    write is taken; saving touches no other level's code and no other key
    but the test key. *)
Theorem saved_code_round_trip
    (levelId code : string) (items items1 : gmap string string) :
  saveLevelCode accepts levelId code items = (true, items1) ->
  items1 !! levelCodeKey levelId = Some code
  /\ (getLevelCode accepts levelId items1).1
     = (if accepts items1 testKey "test" then Some code else None)
  /\ (forall other, other <> levelId ->
        items1 !! levelCodeKey other = items !! levelCodeKey other)
  /\ (forall k, k <> levelCodeKey levelId -> k <> testKey ->
        items1 !! k = items !! k).
Proof.
  unfold saveLevelCode.
  destruct (isAvailable accepts items) as [available items0] eqn:Havail.
  destruct available; cbn; [|done].
  apply isAvailable_true in Havail as [_ ->].
  destruct (accepts _ (levelCodeKey levelId) code); [|done].
  intros [= <-].
  assert (Hother : forall k, k <> levelCodeKey levelId -> k <> testKey ->
            <[levelCodeKey levelId := code]> (delete testKey items) !! k
            = items !! k).
  { intros k Hk Ht. rewrite lookup_insert_ne by done.
    by rewrite lookup_delete_ne. }
  split_and!.
  - apply lookup_insert_eq.
  - unfold getLevelCode, isAvailable.
    destruct (accepts _ testKey "test"); cbn; [|done].
    rewrite lookup_delete_ne by (apply not_eq_sym, levelCodeKey_not_test).
    apply lookup_insert_eq.
  - intros other Hne. apply Hother; [|apply levelCodeKey_not_test].
    intros Heq. by apply Hne, levelCodeKey_inj.
  - exact Hother.
Qed.

(** X18.  After [clearLevelCode] has succeeded for a level, no code is
    found for it, while the code saved for any other level is still
    there. *)
Theorem cleared_code_is_gone
    (levelId : string) (items items1 : gmap string string) :
  clearLevelCode accepts levelId items = (true, items1) ->
  (getLevelCode accepts levelId items1).1 = None
  /\ forall other, other <> levelId ->
       items1 !! levelCodeKey other = items !! levelCodeKey other.
Proof.
  unfold clearLevelCode.
  destruct (isAvailable accepts items) as [available items0] eqn:Havail.
  destruct available; cbn; [|done].
  apply isAvailable_true in Havail as [_ ->]. intros [= <-]. split.
  - unfold getLevelCode, isAvailable.
    destruct (accepts _ testKey "test"); cbn; [|done].
    rewrite lookup_delete_ne by (apply not_eq_sym, levelCodeKey_not_test).
    apply lookup_delete_eq.
  - intros other Hne.
    rewrite lookup_delete_ne by (intros Heq; by apply Hne, levelCodeKey_inj).
    rewrite lookup_delete_ne; [done|]. apply not_eq_sym, levelCodeKey_not_test.
Qed.

(** X19.  When the storage refuses the test write, every operation gives
    up softly - no code is returned, saving and clearing report failure -
    and the storage is left exactly as it was. *)
Theorem unavailable_storage_untouched
    (levelId code : string) (items : gmap string string) :
  accepts items testKey "test" = false ->
  isAvailable accepts items = (false, items)
  /\ getLevelCode accepts levelId items = (None, items)
  /\ saveLevelCode accepts levelId code items = (false, items)
  /\ clearLevelCode accepts levelId items = (false, items)
  /\ clearAllData accepts items = (false, items).
Proof.
  intros Hrefuse.
  unfold getLevelCode, saveLevelCode, clearLevelCode, clearAllData, isAvailable.
  by rewrite Hrefuse.
Qed.

(** X20.  After [clearAllData] has succeeded the storage holds no saved
    code for any level and none of the game's own keys; every key that
    neither starts with the level-code prefix nor is one of those keys or
    the test key keeps its value. *)
Theorem clear_all_data_scope (items items1 : gmap string string) :
  clearAllData accepts items = (true, items1) ->
  (forall levelId, items1 !! levelCodeKey levelId = None)
  /\ (forall levelId, (getLevelCode accepts levelId items1).1 = None)
  /\ items1 !! PROGRESS = None /\ items1 !! SETTINGS = None
  /\ items1 !! SESSION = None /\ items1 !! ACHIEVEMENTS = None
  /\ (forall k,
        String.prefix LEVEL_CODE_PREFIX k = false ->
        k ∉ [PROGRESS; SETTINGS; SESSION; ACHIEVEMENTS; testKey] ->
        items1 !! k = items !! k).
Proof.
  unfold clearAllData.
  destruct (isAvailable accepts items) as [available items0] eqn:Havail.
  destruct available; cbn; [|done].
  apply isAvailable_true in Havail as [_ ->]. intros [= <-].
  assert (Hcode : forall levelId (m : gmap string string),
    filter (fun kv : string * string =>
              String.prefix LEVEL_CODE_PREFIX kv.1 = false) m
      !! levelCodeKey levelId = None).
  { intros levelId m. apply map_lookup_filter_None. right.
    intros v _. cbn. by rewrite levelCodeKey_prefix. }
  split_and!.
  - intros levelId. apply Hcode.
  - intros levelId. unfold getLevelCode, isAvailable.
    destruct (accepts _ testKey "test"); cbn; [|done].
    rewrite lookup_delete_ne by (apply not_eq_sym, levelCodeKey_not_test).
    apply Hcode.
  - apply map_lookup_filter_None. left.
    do 3 (rewrite lookup_delete_ne by done). apply lookup_delete_eq.
  - apply map_lookup_filter_None. left.
    do 2 (rewrite lookup_delete_ne by done). apply lookup_delete_eq.
  - apply map_lookup_filter_None. left.
    rewrite lookup_delete_ne by done. apply lookup_delete_eq.
  - apply map_lookup_filter_None. left. apply lookup_delete_eq.
  - intros k Hprefix Hk.
    rewrite !not_elem_of_cons in Hk. destruct Hk as (K1 & K2 & K3 & K4 & K5 & _).
    destruct (items !! k) as [v|] eqn:Hlook.
    + apply map_lookup_filter_Some. split; [|done].
      by rewrite !lookup_delete_ne by done.
    + apply map_lookup_filter_None. left.
      by rewrite !lookup_delete_ne by done.
Qed.

End LocalStorageFacts.

Lemma saved_code_witness :
  (saveLevelCode alwaysAccepts "2-1" "attack()" sampleItems).2
    !! levelCodeKey "2-1" = Some "attack()"
  /\ (getLevelCode alwaysAccepts "2-1"
        (saveLevelCode alwaysAccepts "2-1" "attack()" sampleItems).2).1
     = Some "attack()".
Proof.
  destruct (saved_code_round_trip alwaysAccepts "2-1" "attack()" sampleItems
              (saveLevelCode alwaysAccepts "2-1" "attack()" sampleItems).2)
    as (Hheld & Hget & _); [reflexivity|].
  split; [exact Hheld | exact Hget].
Defined.

Lemma cleared_code_witness :
  (getLevelCode alwaysAccepts "1-1"
     (clearLevelCode alwaysAccepts "1-1" sampleItems).2).1 = None.
Proof.
  apply (cleared_code_is_gone alwaysAccepts "1-1" sampleItems
           (clearLevelCode alwaysAccepts "1-1" sampleItems).2).
  reflexivity.
Defined.

Lemma unavailable_storage_witness :
  getLevelCode neverAccepts "1-1" sampleItems = (None, sampleItems)
  /\ saveLevelCode neverAccepts "1-1" "attack()" sampleItems = (false, sampleItems).
Proof.
  destruct (unavailable_storage_untouched neverAccepts "1-1" "attack()" sampleItems)
    as (_ & Hget & Hsave & _); [reflexivity|].
  split; [exact Hget | exact Hsave].
Defined.

Lemma clear_all_data_witness :
  (clearAllData alwaysAccepts sampleItems).2 !! levelCodeKey "1-2" = None
  /\ (clearAllData alwaysAccepts sampleItems).2 !! "other_app"
     = sampleItems !! "other_app".
Proof.
  destruct (clear_all_data_scope alwaysAccepts sampleItems
              (clearAllData alwaysAccepts sampleItems).2)
    as (Hcode & _ & _ & _ & _ & _ & Hkept); [reflexivity|].
  split; [apply Hcode|]. apply Hkept; [reflexivity|].
  rewrite !not_elem_of_cons. split_and!; try discriminate. apply not_elem_of_nil.
Defined.

(** ** Stepping next to an enemy *)

Lemma runCommands_dead level fuel commands s :
  heroDead s = true -> runCommands level fuel commands s = Done tt s.
Proof. intros Hdead. destruct commands; cbn; by rewrite Hdead. Qed.

(** X21.  A step that succeeds and ends next to a live enemy is the hero's
    last one when every live enemy next to the new cell has damage of at
    least 1: the adjacency check repeats its passes until the hero's health
    is spent, the hero is marked dead on the new cell, the defeat is the
    last thing reported, no enemy is harmed and none of the commands that
    follow is run. *)
Theorem step_next_to_enemy_is_fatal
    (level : Level) (k : nat) (forward : bool) (rest : list string)
    (s : State) :
  let steps := if forward then 1 else -1 in
  let command : string := if forward then "move_forward" else "move_backward" in
  let target := getPositionInDirection (heroPosition s) (heroDirection s) steps in
  let arrived := set_heroPosition target s in
  heroActive s ->
  ~ blocked level s target ->
  getAdjacentEnemies arrived <> [] ->
  Forall (fun e => 1 <= damage e.2) (getAdjacentEnemies arrived) ->
  exists s',
    runCommands level (Z.to_nat (heroHealth s) + k) (command :: rest) s
    = Done tt s'
    /\ heroDead s' = true /\ heroHealth s' <= 0
    /\ heroPosition s' = target
    /\ enemyMap s' = enemyMap s /\ defeatedEnemies s' = defeatedEnemies s
    /\ last (events s') = Some (Complete false deathMessage).
Proof.
  intros steps command target arrived Hactive Hfree Hnear Hdamage.
  assert (Harrived : heroActive arrived) by done.
  destruct (checkAdjacentEnemies_terminates arrived Hdamage) as [s' Hloop].
  change (heroHealth arrived) with (heroHealth s) in Hloop.
  apply (checkAdjacentEnemies_mono _ k) in Hloop.
  pose proof (checkAdjacentEnemies_passes (Z.to_nat (heroHealth s) + k) arrived
                Harrived Hnear) as Hpasses.
  pose proof (checkAdjacentEnemies_sameWorld (Z.to_nat (heroHealth s) + k) arrived)
    as (Hpos & _ & _ & Hmap & Hdef).
  rewrite Hloop in Hpasses, Hpos, Hmap, Hdef. cbn in Hpos, Hmap, Hdef.
  destruct Hpasses as (n & cut & tail & _ & _ & _ & Hspent & _ & Hdead & Hevents).
  assert (Hexec : executeCommand level (Z.to_nat (heroHealth s) + k) command s
                  = Done tt s').
  { subst command. rewrite (executeCommand_move level _ forward).
    destruct (moveHero_applied level (Z.to_nat (heroHealth s) + k) steps s Hfree)
      as [Hmove _].
    fold steps. rewrite Hmove. fold target. fold arrived. by rewrite Hloop. }
  exists s'. split_and!; try done.
  - rewrite (runCommands_step _ _ _ _ _ _ Hactive Hexec).
    by apply runCommands_dead.
  - rewrite Hevents, !app_assoc. apply last_snoc.
Qed.

Lemma step_next_to_enemy_witness :
  exists s',
    runCommands level_2_1 (100 + 0) ("move_forward" :: ["attack"; "attack"])
      (resetGame level_2_1) = Done tt s'
    /\ heroDead s' = true.
Proof.
  destruct (step_next_to_enemy_is_fatal level_2_1 0%nat true ["attack"; "attack"]
              (resetGame level_2_1)) as (s' & Hrun & Hdead & _).
  - split; [reflexivity | cbn; lia].
  - apply isValidPosition_true. reflexivity.
  - discriminate.
  - repeat constructor; cbn; lia.
  - exists s'. by split.
Defined.

(** ** Walking where no enemy is *)

Lemma step_add p d (a b : Z) :
  getPositionInDirection (getPositionInDirection p d a) d b
  = getPositionInDirection p d (a + b).
Proof.
  unfold getPositionInDirection. destruct p as [x y], d; cbn; f_equal; lia.
Qed.

(** X22.  In a scene without enemies, [n] steps forward along cells that
    lie inside the grid and are no walls take the hero exactly [n] cells
    ahead and change nothing else; the run goes on from there. *)
Theorem walk_along_free_cells
    (level : Level) (fuel : nat) (n : nat) (rest : list string) (s : State) :
  heroActive s ->
  enemyMap s = [] ->
  (forall i : nat, (1 <= i <= n)%nat ->
     ~ blocked level s
         (getPositionInDirection (heroPosition s) (heroDirection s) (Z.of_nat i))) ->
  runCommands level fuel (replicate n "move_forward" ++ rest) s
  = runCommands level fuel rest
      (set_heroPosition
         (getPositionInDirection (heroPosition s) (heroDirection s) (Z.of_nat n)) s).
Proof.
  revert s; induction n as [|n IH]; intros s Hactive Hnone Hfree.
  - cbn [replicate app]. f_equal. unfold getPositionInDirection; cbn.
    rewrite !Z.mul_0_r, !Z.add_0_r. destruct s as [[x y] d c h mh dead m de ev].
    done.
  - cbn [replicate app].
    assert (Hstep : executeCommand level fuel "move_forward" s
                    = Done tt (set_heroPosition (aheadPos s) s)).
    { rewrite (executeCommand_move level fuel true).
      rewrite (moveHero_free level fuel 1 s); [done | |].
      - apply (Hfree 1%nat). lia.
      - unfold getAdjacentEnemies; cbn. by rewrite Hnone. }
    rewrite (runCommands_step _ _ _ _ _ _ Hactive Hstep).
    rewrite IH; [| done | done |].
    + f_equal.
      change (heroPosition (set_heroPosition (aheadPos s) s)) with (aheadPos s).
      change (heroDirection (set_heroPosition (aheadPos s) s)) with (heroDirection s).
      unfold aheadPos. rewrite step_add.
      replace (1 + Z.of_nat n) with (Z.of_nat (S n)) by lia. by destruct s.
    + intros i Hi.
      assert (Hnext : getPositionInDirection
                        (heroPosition (set_heroPosition (aheadPos s) s))
                        (heroDirection (set_heroPosition (aheadPos s) s))
                        (Z.of_nat i)
                      = getPositionInDirection (heroPosition s) (heroDirection s)
                          (Z.of_nat (S i))).
      { change (heroPosition (set_heroPosition (aheadPos s) s)) with (aheadPos s).
        change (heroDirection (set_heroPosition (aheadPos s) s))
          with (heroDirection s).
        unfold aheadPos. rewrite step_add. f_equal. lia. }
      rewrite Hnext. intros Hb. apply (Hfree (S i)); [lia|].
      destruct Hb as [?|[?|Hlive]]; [by left | by right; left |].
      right; right. exact Hlive.
Qed.

Lemma walk_witness :
  runCommands shortLimitLevel 0 (replicate 3 "move_forward" ++ [])
    (resetGame shortLimitLevel)
  = runCommands shortLimitLevel 0 []
      (set_heroPosition (mkPos 3 1) (resetGame shortLimitLevel)).
Proof.
  apply (walk_along_free_cells shortLimitLevel 0%nat 3%nat []
           (resetGame shortLimitLevel)).
  - split; [reflexivity | cbn; lia].
  - reflexivity.
  - intros i Hi. apply isValidPosition_true.
    destruct i as [|[|[|[|i]]]]; try lia; reflexivity.
Defined.
